(** * BGV toy scheme (src/main.py): a shallow embedding and its properties

    The program is a single Python module of five functions over NumPy
    arrays: [setup], [secret_key_gen], [public_key_gen], [encrypt] and
    [decrypt].

    Modelling choices.
    - A Python [int] (the parameters, the message) is an unbounded [Z].
    - A NumPy array holds 64-bit signed integers (the default dtype of
      [np.random.randint] and of [np.array] on a list of small ints);
      every array operation writes its result through [wrap64],
      two's-complement wrap-around.
    - A one-dimensional array is a [list Z]; a two-dimensional array is a
      [matrix]: the column count together with the list of rows.
    - Python exceptions are values of [exn]; a call either returns
      [Ok v] or [Err e].
    - The random generators ([random] and [np.random]) are global state.
      Every function is a computation in the monad [M], which threads a
      generator state and keeps it when an exception is raised.  The
      generator is an interface, [RandomSource]: the theorems hold for
      every generator whose draws are in range.
    - [x % q] on an array or an array scalar first converts the Python
      int [q] to the 64-bit dtype, OverflowError when it does not fit;
      then it is floor modulo (the result has the sign of [q]), and 0
      when [q] is 0.
    - The arrays that a caller passes in ([sk], [pk], [ciphertext]) are
      64-bit arrays as well: their entries satisfy [int64].  An array of
      larger Python ints has another dtype and is outside the model, so
      the theorems about arbitrary arrays assume [int64] entries. *)

From Stdlib Require Import String ZArith List Bool Lia.
Import ListNotations.
Local Open Scope Z_scope.

(** ** Exceptions and results *)

Inductive exn : Type :=
| ValueError
| IndexError
| OverflowError
| AssertionError (msg : string).

Inductive result (A : Type) : Type :=
| Ok (a : A)
| Err (e : exn).

Arguments Ok {A} a.
Arguments Err {A} e.

(** ** 64-bit integers *)

Definition int64_min : Z := - 2 ^ 63.
Definition int64_max : Z := 2 ^ 63 - 1.

Definition int64 (z : Z) : Prop := int64_min <= z <= int64_max.

Definition int64b (z : Z) : bool := (int64_min <=? z) && (z <=? int64_max).

Definition wrap64 (z : Z) : Z := (z + 2 ^ 63) mod 2 ^ 64 - 2 ^ 63.

(** ** The generator interface

    [draw_int lo hi g] is one sample of [np.random.randint(lo, hi)];
    [draw_bits k g] is [random.getrandbits(k)].  Both return the sample
    and the next generator state. *)

Class RandomSource (G : Type) : Type := {
  draw_int : Z -> Z -> G -> Z * G;
  draw_bits : Z -> G -> Z * G;
  draw_int_range :
    forall lo hi g, lo < hi -> lo <= fst (draw_int lo hi g) < hi
}.

(** A generator that replays a tape: the next sample is the head of the
    tape, brought into range; an exhausted tape yields the lower bound. *)

Definition tape_draw_int (lo hi : Z) (t : list Z) : Z * list Z :=
  match t with
  | [] => (lo, [])
  | x :: t' => (lo + x mod (hi - lo), t')
  end.

Definition tape_draw_bits (k : Z) (t : list Z) : Z * list Z :=
  match t with
  | [] => (0, [])
  | x :: t' => (x mod 2 ^ k, t')
  end.

#[export] Instance tape_source : RandomSource (list Z).
Proof.
  refine {| draw_int := tape_draw_int; draw_bits := tape_draw_bits |}.
  intros lo hi [|x t] H; simpl; [lia|].
  pose proof (Z.mod_pos_bound x (hi - lo)); lia.
Defined.

(** ** NumPy arrays *)

Definition vector : Type := list Z.

Record matrix : Type := mkMatrix {
  ncols : nat;
  rows : list (list Z)
}.

Definition nrows (m : matrix) : nat := length (rows m).

Definition wf_matrix (m : matrix) : Prop :=
  Forall (fun r => length r = ncols m) (rows m).

(** Floor modulo of Python and NumPy on 64-bit values; 0 when the
    modulus is 0. *)
Definition floor_mod (x q : Z) : Z := if q =? 0 then 0 else x mod q.

(** [x % q] for a 64-bit scalar [x] and a Python int [q]: OverflowError
    when [q] does not fit the dtype. *)
Definition np_mod (x q : Z) : result Z :=
  if int64b q then Ok (floor_mod x q) else Err OverflowError.

(** Pairing two lists entry by entry, up to the shorter one. *)
Fixpoint map2 {A B C} (f : A -> B -> C) (u : list A) (v : list B) : list C :=
  match u, v with
  | x :: u', y :: v' => f x y :: map2 f u' v'
  | _, _ => []
  end.

(** Element-wise binary operation on one-dimensional arrays, with
    NumPy's broadcasting: equal lengths pair up, an array of length 1 is
    stretched, anything else is a ValueError. *)
Definition broadcast2 {C} (f : Z -> Z -> C) (u v : vector) : result (list C) :=
  if Nat.eqb (length u) (length v) then Ok (map2 f u v)
  else match u, v with
       | [x], _ => Ok (map (fun y => f x y) v)
       | _, [y] => Ok (map (fun x => f x y) u)
       | _, _ => Err ValueError
       end.

Definition np_add (u v : vector) : result vector :=
  broadcast2 (fun x y => wrap64 (x + y)) u v.

Definition np_multiply (u v : vector) : result vector :=
  broadcast2 (fun x y => wrap64 (x * y)) u v.

Definition np_equal (u v : vector) : result (list bool) :=
  broadcast2 Z.eqb u v.

Definition np_all (bs : list bool) : bool := forallb (fun b => b) bs.

(** [k * v] for a Python int [k]. *)
Definition np_scale (k : Z) (v : vector) : vector :=
  map (fun x => wrap64 (k * x)) v.

(** [v % q] for a 64-bit array [v] and a Python int [q]. *)
Definition np_mod_vec (v : vector) (q : Z) : result vector :=
  if int64b q then Ok (map (fun x => floor_mod x q) v)
  else Err OverflowError.

Definition sumZ (v : list Z) : Z := fold_right Z.add 0 v.

Definition np_sum (v : vector) : Z := wrap64 (sumZ v).

(** The exact inner product of two lists, over their common prefix. *)
Fixpoint dotZ (u v : list Z) : Z :=
  match u, v with
  | x :: u', y :: v' => x * y + dotZ u' v'
  | _, _ => 0
  end.

(** [np.dot(m, v)] for a matrix and a vector: the inner dimension must
    agree. *)
Definition np_dot (m : matrix) (v : vector) : result vector :=
  if Nat.eqb (ncols m) (length v)
  then Ok (map (fun r => wrap64 (dotZ r v)) (rows m))
  else Err ValueError.

(** [-m] *)
Definition np_negative (m : matrix) : matrix :=
  mkMatrix (ncols m) (map (map (fun x => wrap64 (- x))) (rows m)).

(** [m % q] for a 64-bit matrix [m] and a Python int [q]. *)
Definition np_mod_mat (m : matrix) (q : Z) : result matrix :=
  if int64b q
  then Ok (mkMatrix (ncols m) (map (map (fun x => floor_mod x q)) (rows m)))
  else Err OverflowError.

(** [m.T] *)
Definition transpose (m : matrix) : matrix :=
  mkMatrix (nrows m)
    (map (fun j => map (fun r => nth j r 0) (rows m)) (seq 0 (ncols m))).

(** Successive chunks of [c] entries, [k] of them. *)
Fixpoint chunks (k c : nat) (l : list Z) : list (list Z) :=
  match k with
  | O => []
  | S k' => firstn c l :: chunks k' c (skipn c l)
  end.

(** [v.reshape(r, c)] of a one-dimensional array of [r * c] entries: both
    dimensions must be non-negative and fit the size. *)
Definition reshape (v : vector) (r c : Z) : result matrix :=
  if (r <? 0) || (c <? 0) || negb (r * c =? Z.of_nat (length v))
  then Err ValueError
  else Ok (mkMatrix (Z.to_nat c) (chunks (Z.to_nat r) (Z.to_nat c) v)).

(** [np.hstack((a, b))] of two matrices: the row counts must agree. *)
Definition np_hstack (a b : matrix) : result matrix :=
  if Nat.eqb (nrows a) (nrows b)
  then Ok (mkMatrix (ncols a + ncols b) (map2 (@app Z) (rows a) (rows b)))
  else Err ValueError.

(** ** Reference values in exact integer arithmetic *)

(** One row of the public key in exact integer arithmetic, from a row
    [r] of A, the tail [s] of the secret key and the noise entry [ei]:
    the entry of b = A s + 2 e reduced modulo q, then the row of -A
    reduced modulo q. *)
Definition public_key_row (q : Z) (s r : list Z) (ei : Z) : list Z :=
  ((dotZ r s + 2 * ei) mod q) :: map (fun x => (- x) mod q) r.

(** The same row as the 64-bit operations of [public_key_gen] compute
    it: the entry of b next to the row of -A, reduced modulo q. *)
Definition computed_row (q : Z) (s r : list Z) (ei : Z) : list Z :=
  map (fun x => floor_mod x q)
    ([wrap64 (wrap64 (dotZ r s) + wrap64 (2 * ei))]
     ++ map (fun x => wrap64 (- x)) r).

(** The hypotheses under which no 64-bit operation of key generation
    wraps around. *)
Definition fits64 (q n : Z) : Prop := (n + 1) * q * q <= int64_max.

(** Column [j] of a matrix; row [j] of its transpose. *)
Definition column (pk : matrix) (j : nat) : list Z :=
  map (fun r => nth j r 0) (rows pk).

(** Entry [j] of the message vector [m, 0, ..., 0]. *)
Definition message_entry (m : Z) (j : nat) : Z :=
  if Nat.eqb j 0 then m else 0.

(** The ciphertext as the 64-bit operations compute it. *)
Definition ciphertext_computed (q n : Z) (pk : matrix) (m : Z) (r : vector)
  : vector :=
  map (fun j =>
         floor_mod
           (wrap64 (message_entry m j + wrap64 (dotZ (column pk j) r))) q)
      (seq 0 (Z.to_nat (n + 1))).

(** The ciphertext of the specification, in exact integer arithmetic:
    ([m, 0, ..., 0] + pk^T r) mod q. *)
Definition ciphertext_exact (q n : Z) (pk : matrix) (m : Z) (r : vector)
  : vector :=
  map (fun j => (message_entry m j + dotZ (column pk j) r) mod q)
      (seq 0 (Z.to_nat (n + 1))).

(** ** The monad of the program: generator state and exceptions *)

Section Program.

Context {G : Type} {RS : RandomSource G}.

Definition M (A : Type) : Type := G -> result A * G.

Definition ret {A} (a : A) : M A := fun g => (Ok a, g).

Definition raise {A} (e : exn) : M A := fun g => (Err e, g).

Definition bind {A B} (m : M A) (f : A -> M B) : M B :=
  fun g =>
    match m g with
    | (Ok a, g') => f a g'
    | (Err e, g') => (Err e, g')
    end.

Definition lift {A} (r : result A) : M A := fun g => (r, g).

Notation "x <- m ;; f" := (bind m (fun x => f))
  (at level 61, m at next level, right associativity).

(** ** The generators' library calls *)

(** [count] consecutive samples. *)
Fixpoint draw_ints (lo hi : Z) (count : nat) (g : G) : list Z * G :=
  match count with
  | O => ([], g)
  | S k =>
      let (x, g1) := draw_int lo hi g in
      let (xs, g2) := draw_ints lo hi k g1 in
      (x :: xs, g2)
  end.

(** [np.random.randint(low, high, size)]: [size] samples of [low, high)
    as a 64-bit array.  A size of 0 gives the empty array at once,
    before the bounds are looked at.  Otherwise ValueError when the
    range is empty, when a bound does not fit the dtype, or when [size]
    is negative. *)
Definition randint (low high size : Z) : M (list Z) :=
  fun g =>
    if size =? 0 then (Ok [], g)
    else if (high <=? low) || (2 ^ 63 <? high) || (low <? - 2 ^ 63)
            || (size <? 0)
    then (Err ValueError, g)
    else let (v, g') := draw_ints low high (Z.to_nat size) g in (Ok v, g').

(** [random.getrandbits(k)]: the argument is first converted to a C
    int, OverflowError when it does not fit; then ValueError for a
    negative [k]. *)
Definition getrandbits (k : Z) : M Z :=
  fun g =>
    if (k <? - 2 ^ 31) || (2 ^ 31 <=? k) then (Err OverflowError, g)
    else if k <? 0 then (Err ValueError, g)
    else let (x, g') := draw_bits k g in (Ok x, g').

(** ** The program *)

Definition params : Type := (Z * Z * Z * Z * Z)%type.

(** [int(math.ceil(c * math.log(q, 2)))] for integers [c >= 0] and
    [q >= 1]: the least [k] with [q ^ c <= 2 ^ k].  The floating-point
    rounding of the source is not modelled; at the program's values the
    real number is 69.76..., far from an integer. *)
Definition ceil_mul_log2 (c q : Z) : Z := Z.log2_up (q ^ c).

Definition setup (bit_length mod_size base_value : Z) : M params :=
  q <- getrandbits mod_size ;;
  let q := 10 in
  let d := 10 in
  let n := 10 in
  let chi := 1 in
  let N := ceil_mul_log2 (2 * n + 1) q in
  ret (q, d, n, N, chi).

Definition secret_key_gen (p : params) : M vector :=
  let '(q, d, n, N, chi) := p in
  secret_key <- randint 0 q (n + 1) ;;
  match secret_key with
  | [] => raise IndexError
  | _ :: rest => ret (1 :: rest)
  end.

Definition public_key_gen (p : params) (sk : vector) : M matrix :=
  let '(q, d, n, N, chi) := p in
  a <- randint 0 q (N * n) ;;
  A <- lift (reshape a N n) ;;
  e <- randint 0 q N ;;
  As <- lift (np_dot A (tl sk)) ;;
  b <- lift (np_add As (np_scale 2 e)) ;;
  b <- lift (reshape b N 1) ;;
  stacked <- lift (np_hstack b (np_negative A)) ;;
  public_key <- lift (np_mod_mat stacked q) ;;
  lhs <- lift (np_dot public_key sk) ;;
  lhs <- lift (np_mod_vec lhs q) ;;
  rhs <- lift (np_mod_vec (np_scale 2 e) q) ;;
  cmp <- lift (np_equal lhs rhs) ;;
  if np_all cmp then ret public_key
  else raise (AssertionError "Public key generation failed"%string).

Definition encrypt (p : params) (pk : matrix) (message : Z) : M vector :=
  if negb ((message =? 0) || (message =? 1))
  then raise (AssertionError "Message must be either 0 or 1"%string)
  else
    let '(q, d, n, N, chi) := p in
    let message_vector := message :: repeat 0 (Z.to_nat n) in
    r <- randint 0 2 N ;;
    pr <- lift (np_dot (transpose pk) r) ;;
    ciphertext <- lift (np_add message_vector pr) ;;
    lift (np_mod_vec ciphertext q).

Definition decrypt (p : params) (sk ciphertext : vector) : M Z :=
  let '(q, d, n, N, chi) := p in
  prod <- lift (np_multiply ciphertext sk) ;;
  s <- lift (np_mod (np_sum prod) q) ;;
  lift (np_mod s 2).

(** ** The values one call draws *)

(** The matrix A and the noise e that one call draws, and the generator
    state it leaves. *)
Definition drawn_A (q n N : Z) (g : G) : list (list Z) :=
  chunks (Z.to_nat N) (Z.to_nat n)
    (fst (draw_ints 0 q (Z.to_nat (N * n)) g)).

Definition drawn_e (q n N : Z) (g : G) : vector :=
  fst (draw_ints 0 q (Z.to_nat N)
         (snd (draw_ints 0 q (Z.to_nat (N * n)) g))).

Definition after_key_draws (q n N : Z) (g : G) : G :=
  snd (draw_ints 0 q (Z.to_nat N)
         (snd (draw_ints 0 q (Z.to_nat (N * n)) g))).

(** The binary vector r that one call of [encrypt] draws, and the
    generator state it leaves. *)
Definition drawn_r (N : Z) (g : G) : vector :=
  fst (draw_ints 0 2 (Z.to_nat N) g).

Definition after_r (N : Z) (g : G) : G :=
  snd (draw_ints 0 2 (Z.to_nat N) g).

(** ** The driver

    The block under [if __name__ == "__main__"].  Standard output is a
    log of printed items, each a label and a value; the driver threads
    the log next to the generator state, and an exception keeps what
    was printed before it. *)

Inductive printed : Type :=
| PInt (label : string) (value : Z)
| PVec (label : string) (value : vector).

Definition D (A : Type) : Type :=
  list printed -> G -> result A * G * list printed.

Definition retD {A} (a : A) : D A := fun out g => (Ok a, g, out).

Definition bindD {A B} (m : D A) (f : A -> D B) : D B :=
  fun out g =>
    match m out g with
    | (Ok a, g', out') => f a out' g'
    | (Err e, g', out') => (Err e, g', out')
    end.

(** A call of one of the program's functions: it does not print. *)
Definition run {A} (m : M A) : D A :=
  fun out g => let (r, g') := m g in (r, g', out).

(** [print(label, value)] *)
Definition print (x : printed) : D unit :=
  fun out g => (Ok tt, g, out ++ [x]).

(** [pk[i]] for a literal index [i >= 0]: a row of the matrix, IndexError
    past the last row. *)
Definition getitem (pk : matrix) (i : nat) : result vector :=
  match nth_error (rows pk) i with
  | Some r => Ok r
  | None => Err IndexError
  end.

Definition tab : string := String (Ascii.ascii_of_nat 9) EmptyString.

Definition main : D unit :=
  let BIT := 0 in
  bindD (run (setup 1 1 1)) (fun params =>
  bindD (run (secret_key_gen params)) (fun sk =>
  bindD (run (public_key_gen params sk)) (fun pk =>
  bindD (run (encrypt params pk BIT)) (fun ciphertext =>
  bindD (print (PInt ("Message bit:" ++ tab) BIT)) (fun _ =>
  bindD (run (lift (getitem pk 0))) (fun pk0 =>
  bindD (print (PVec ("Public key [0]:" ++ tab) pk0)) (fun _ =>
  bindD (run (lift (getitem pk 1))) (fun pk1 =>
  bindD (print (PVec ("Public key [1]:" ++ tab) pk1)) (fun _ =>
  bindD (print (PVec ("Secret key:" ++ tab) sk)) (fun _ =>
  bindD (print (PVec ("Ciphertext:" ++ tab) ciphertext)) (fun _ =>
  bindD (run (decrypt params sk ciphertext)) (fun decrypted =>
  print (PInt ("Decrypted bit:" ++ tab) decrypted))))))))))))).

End Program.

Notation "x <- m ;; f" := (bind m (fun x => f))
  (at level 61, m at next level, right associativity).

(** ** Concrete inputs *)

Definition toy : params := (10, 10, 10, 70, 1).

Definition toy_sk : vector := [1; 4; 5; 6; 7; 8; 9; 0; 1; 2; 3].

Definition counting_tape : list Z := map Z.of_nat (seq 0 800).

Definition small_pk : matrix := mkMatrix 2 [[1; 2]; [3; 4]; [5; 6]].

(** * Properties *)

(** ** 64-bit wrap-around *)

Lemma wrap64_id (z : Z) : int64 z -> wrap64 z = z.
Proof.
  unfold int64, int64_min, int64_max, wrap64; intros H.
  rewrite Z.mod_small; lia.
Qed.

Lemma wrap64_int64 (z : Z) : int64 (wrap64 z).
Proof.
  unfold int64, int64_min, int64_max, wrap64.
  pose proof (Z.mod_pos_bound (z + 2 ^ 63) (2 ^ 64)); lia.
Qed.

Lemma int64b_true (z : Z) : int64 z -> int64b z = true.
Proof.
  unfold int64, int64b; intros [H1 H2].
  apply andb_true_intro; split; apply Z.leb_le; assumption.
Qed.

Lemma int64b_int64 (z : Z) : int64b z = true -> int64 z.
Proof.
  unfold int64, int64b; intros H.
  apply andb_prop in H; destruct H as [H1 H2].
  split; apply Z.leb_le; assumption.
Qed.

Lemma floor_mod_range (x q : Z) : 0 < q -> 0 <= floor_mod x q < q.
Proof.
  intros Hq; unfold floor_mod.
  destruct (Z.eqb_spec q 0); [lia|].
  apply Z.mod_pos_bound; assumption.
Qed.

Lemma floor_mod_pos (x q : Z) : 0 < q -> floor_mod x q = x mod q.
Proof.
  intros Hq; unfold floor_mod.
  destruct (Z.eqb_spec q 0); [lia|reflexivity].
Qed.

Lemma np_mod_ok (x q : Z) : int64 q -> np_mod x q = Ok (floor_mod x q).
Proof. intros Hq; unfold np_mod; now rewrite int64b_true. Qed.

Lemma np_mod_vec_ok (v : vector) (q : Z) :
  int64 q -> np_mod_vec v q = Ok (map (fun x => floor_mod x q) v).
Proof. intros Hq; unfold np_mod_vec; now rewrite int64b_true. Qed.

Lemma np_mod_mat_ok (m : matrix) (q : Z) :
  int64 q ->
  np_mod_mat m q
  = Ok (mkMatrix (ncols m) (map (map (fun x => floor_mod x q)) (rows m))).
Proof. intros Hq; unfold np_mod_mat; now rewrite int64b_true. Qed.

(** A positive modulus within the bound of key generation fits the
    dtype. *)
Lemma int64_pos (q : Z) : 0 < q -> q <= int64_max -> int64 q.
Proof. unfold int64, int64_min, int64_max; lia. Qed.

(** ** Lists: [map2], [chunks], [dotZ] *)

Section ListFacts.

Context {A B C D : Type}.

Lemma map2_length (f : A -> B -> C) (u : list A) (v : list B) :
  length (map2 f u v) = Nat.min (length u) (length v).
Proof.
  revert v; induction u as [|x u IH]; intros [|y v]; simpl; auto.
Qed.

Lemma map_map2 (g : C -> D) (f : A -> B -> C) (u : list A) (v : list B) :
  map g (map2 f u v) = map2 (fun x y => g (f x y)) u v.
Proof.
  revert v; induction u as [|x u IH]; intros [|y v]; simpl; auto.
  now rewrite IH.
Qed.

Lemma map2_map_l (f : C -> B -> D) (g : A -> C) (u : list A) (v : list B) :
  map2 f (map g u) v = map2 (fun x y => f (g x) y) u v.
Proof.
  revert v; induction u as [|x u IH]; intros [|y v]; simpl; auto.
  now rewrite IH.
Qed.

Lemma map2_map_r (f : A -> C -> D) (g : B -> C) (u : list A) (v : list B) :
  map2 f u (map g v) = map2 (fun x y => f x (g y)) u v.
Proof.
  revert v; induction u as [|x u IH]; intros [|y v]; simpl; auto.
  now rewrite IH.
Qed.

(** Pairing a [map2] again with one of its own arguments. *)
Lemma map2_diag_l (f : C -> A -> D) (g : A -> B -> C) (u : list A) (v : list B) :
  map2 f (map2 g u v) u = map2 (fun x y => f (g x y) x) u v.
Proof.
  revert v; induction u as [|x u IH]; intros [|y v]; simpl; auto.
  now rewrite IH.
Qed.

Lemma map2_diag_r (f : C -> B -> D) (g : A -> B -> C) (u : list A) (v : list B) :
  map2 f (map2 g u v) v = map2 (fun x y => f (g x y) y) u v.
Proof.
  revert v; induction u as [|x u IH]; intros [|y v]; simpl; auto.
  now rewrite IH.
Qed.

Lemma map2_ext_Forall (P : A -> Prop) (Q : B -> Prop) (f g : A -> B -> C)
    (u : list A) (v : list B) :
  Forall P u -> Forall Q v ->
  (forall x y, P x -> Q y -> f x y = g x y) ->
  map2 f u v = map2 g u v.
Proof.
  intros Hu Hv Hfg; revert v Hv.
  induction Hu as [|x u Hx Hu IH]; intros v Hv; [reflexivity|].
  destruct Hv as [|y v Hy Hv]; simpl; [reflexivity|].
  now rewrite Hfg, IH.
Qed.

Lemma Forall_map2 (P : A -> Prop) (Q : B -> Prop) (R : C -> Prop)
    (f : A -> B -> C) (u : list A) (v : list B) :
  Forall P u -> Forall Q v ->
  (forall x y, P x -> Q y -> R (f x y)) ->
  Forall R (map2 f u v).
Proof.
  intros Hu Hv Hf; revert v Hv.
  induction Hu as [|x u Hx Hu IH]; intros v Hv; [constructor|].
  destruct Hv as [|y v Hy Hv]; simpl; constructor; auto.
Qed.

Lemma nth_map2 (f : A -> B -> C) (u : list A) (v : list B)
    (i : nat) (da : A) (db : B) (dc : C) :
  (i < length u)%nat -> (i < length v)%nat ->
  nth i (map2 f u v) dc = f (nth i u da) (nth i v db).
Proof.
  revert v i; induction u as [|x u IH]; intros [|y v] [|i]; simpl;
    try lia; auto.
  intros; apply IH; lia.
Qed.

End ListFacts.

Lemma forallb_map2_true {A B} (P : A -> Prop) (Q : B -> Prop)
    (f : A -> B -> bool) (u : list A) (v : list B) :
  Forall P u -> Forall Q v ->
  (forall x y, P x -> Q y -> f x y = true) ->
  np_all (map2 f u v) = true.
Proof.
  intros Hu Hv Hf; revert v Hv.
  induction Hu as [|x u Hx Hu IH]; intros v Hv; [reflexivity|].
  destruct Hv as [|y v Hy Hv]; simpl; [reflexivity|].
  rewrite Hf by assumption; simpl; apply IH; assumption.
Qed.

Lemma chunks_length (k c : nat) (l : list Z) : length (chunks k c l) = k.
Proof.
  revert l; induction k as [|k IH]; intros l; simpl; auto.
Qed.

Lemma chunks_rows (k c : nat) (l : list Z) :
  length l = (k * c)%nat -> Forall (fun r => length r = c) (chunks k c l).
Proof.
  revert l; induction k as [|k IH]; intros l Hl; simpl; constructor.
  - rewrite length_firstn; simpl in Hl; lia.
  - apply IH; rewrite length_skipn; simpl in Hl; lia.
Qed.

Lemma Forall_firstn {A} (P : A -> Prop) (c : nat) (l : list A) :
  Forall P l -> Forall P (firstn c l).
Proof.
  intros H; revert c; induction H as [|x l Hx Hl IH]; intros [|c]; simpl;
    constructor; auto.
Qed.

Lemma Forall_skipn {A} (P : A -> Prop) (c : nat) (l : list A) :
  Forall P l -> Forall P (skipn c l).
Proof.
  intros H; revert c; induction H as [|x l Hx Hl IH]; intros [|c]; simpl;
    auto.
Qed.

Lemma chunks_Forall (P : Z -> Prop) (k c : nat) (l : list Z) :
  Forall P l -> Forall (Forall P) (chunks k c l).
Proof.
  revert l; induction k as [|k IH]; intros l Hl; simpl; constructor.
  - apply Forall_firstn; assumption.
  - apply IH, Forall_skipn; assumption.
Qed.

(** A column of [k] entries is its list of singleton rows. *)
Lemma chunks_column (k : nat) (l : list Z) :
  length l = k -> chunks k 1 l = map (fun x => [x]) l.
Proof.
  revert l; induction k as [|k IH]; intros [|x l] Hl; simpl in *;
    try discriminate; auto.
  f_equal; apply IH; lia.
Qed.

(** ** The exact inner product *)

Lemma dotZ_bounds (a b : Z) (u v : list Z) :
  0 <= a -> 0 <= b ->
  Forall (fun x => 0 <= x <= a) u -> Forall (fun y => 0 <= y <= b) v ->
  0 <= dotZ u v <= Z.of_nat (length u) * (a * b).
Proof.
  intros Ha Hb Hu; revert v; induction Hu as [|x u Hx Hu IH]; intros v Hv.
  - simpl; lia.
  - destruct Hv as [|y v Hy Hv].
    + simpl dotZ. nia.
    + specialize (IH v Hv). cbn [dotZ length].
      rewrite Nat2Z.inj_succ. nia.
Qed.

(** Reducing the left operand modulo [q] does not change the inner
    product modulo [q]. *)
Lemma dotZ_mod_l {I} (q : Z) (f : I -> Z) (u : list I) (v : list Z) :
  dotZ (map (fun x => f x mod q) u) v mod q = dotZ (map f u) v mod q.
Proof.
  revert v; induction u as [|x u IH]; intros [|y v]; simpl; auto.
  rewrite Zplus_mod, Zmult_mod_idemp_l, IH, <- Zplus_mod; reflexivity.
Qed.

Lemma dotZ_opp_l (u v : list Z) : dotZ (map Z.opp u) v = - dotZ u v.
Proof.
  revert v; induction u as [|x u IH]; intros [|y v]; simpl; auto.
  rewrite IH; ring.
Qed.

Lemma dotZ_repeat0_l (k : nat) (v : list Z) : dotZ (repeat 0 k) v = 0.
Proof.
  revert v; induction k as [|k IH]; intros [|y v]; simpl; auto.
Qed.

(** The inner product is additive and homogeneous in its left operand,
    when that operand is given by a function over a list of indices. *)
Lemma dotZ_map_add {I} (f g : I -> Z) (js : list I) (v : list Z) :
  dotZ (map (fun j => f j + g j) js) v
  = dotZ (map f js) v + dotZ (map g js) v.
Proof.
  revert v; induction js as [|j js IH]; intros [|y v]; simpl; auto.
  rewrite IH; ring.
Qed.

Lemma dotZ_map_scale {I} (k : Z) (f : I -> Z) (js : list I) (v : list Z) :
  dotZ (map (fun j => f j * k) js) v = k * dotZ (map f js) v.
Proof.
  revert v; induction js as [|j js IH]; intros [|y v]; simpl;
    try rewrite IH; ring.
Qed.

(** Reading a list by index gives the list back. *)
Lemma map_nth_seq (r : list Z) :
  map (fun j => nth j r 0) (seq 0 (length r)) = r.
Proof.
  induction r as [|x r IH]; simpl; auto.
  f_equal. rewrite <- seq_shift, map_map. exact IH.
Qed.

(** Exchange of the two sums in [(M^T r) . v = r . (M v)], for a list of
    rows [M] that all have [c] entries. *)
Lemma dotZ_transpose (c : nat) (M : list (list Z)) (r v : list Z) :
  Forall (fun row => length row = c) M ->
  length r = length M ->
  dotZ (map (fun j => dotZ (map (fun row => nth j row 0) M) r) (seq 0 c)) v
  = dotZ (map (fun row => dotZ row v) M) r.
Proof.
  intros HM; revert r; induction HM as [|row M Hrow HM IH]; intros r Hr.
  - destruct r; [|discriminate]. simpl.
    change (fun _ : nat => 0) with (fun j : nat => (fun _ => 0) j * 0).
    rewrite (dotZ_map_scale 0); ring.
  - destruct r as [|r0 r]; [discriminate|]. simpl in Hr.
    cbn [map dotZ].
    rewrite (dotZ_map_add (fun j => nth j row 0 * r0)
               (fun j => dotZ (map (fun row0 => nth j row0 0) M) r)).
    rewrite IH by lia.
    rewrite (dotZ_map_scale r0 (fun j => nth j row 0)).
    rewrite <- Hrow, map_nth_seq. ring.
Qed.

Lemma map_zero_seq (a k : nat) :
  map (fun _ : nat => 0) (seq a k) = repeat 0 k.
Proof.
  revert a; induction k as [|k IH]; intros a; simpl; f_equal; auto.
Qed.

(** An inner product whose left entries are all even is even. *)
Lemma dotZ_even_l (u v : list Z) :
  Forall (fun x => x mod 2 = 0) u -> dotZ u v mod 2 = 0.
Proof.
  intros Hu; revert v; induction Hu as [|x u Hx Hu IH]; intros [|y v];
    simpl; auto.
  rewrite Zplus_mod, <- Zmult_mod_idemp_l, Hx, IH; reflexivity.
Qed.

(** The sum of the element-wise products is the inner product. *)
Lemma sumZ_map2_mul (u v : list Z) : sumZ (map2 Z.mul u v) = dotZ u v.
Proof.
  revert v; induction u as [|x u IH]; intros [|y v]; simpl; auto.
  unfold sumZ in IH; rewrite IH; reflexivity.
Qed.

(** ** The generator's library calls *)

Section Correctness.

Context {G : Type} {RS : RandomSource G}.

Lemma draw_ints_length (lo hi : Z) (k : nat) (g : G) :
  length (fst (draw_ints lo hi k g)) = k.
Proof.
  revert g; induction k as [|k IH]; intros g; simpl; auto.
  destruct (draw_int lo hi g) as [x g1].
  specialize (IH g1). destruct (draw_ints lo hi k g1) as [xs g2].
  simpl in *; congruence.
Qed.

Lemma draw_ints_range (lo hi : Z) (k : nat) (g : G) :
  lo < hi -> Forall (fun x => lo <= x < hi) (fst (draw_ints lo hi k g)).
Proof.
  intros Hlt; revert g; induction k as [|k IH]; intros g; simpl.
  - constructor.
  - pose proof (draw_int_range lo hi g Hlt) as Hx.
    destruct (draw_int lo hi g) as [x g1].
    specialize (IH g1). destruct (draw_ints lo hi k g1) as [xs g2].
    simpl in *; constructor; assumption.
Qed.

Lemma randint_ok (lo hi size : Z) (g : G) :
  lo < hi -> hi <= 2 ^ 63 -> - 2 ^ 63 <= lo -> 0 <= size ->
  randint lo hi size g
  = (Ok (fst (draw_ints lo hi (Z.to_nat size) g)),
     snd (draw_ints lo hi (Z.to_nat size) g)).
Proof.
  intros H1 H2 H3 H4; unfold randint.
  destruct (Z.eqb_spec size 0) as [->|Hs]; [reflexivity|].
  destruct (Z.leb_spec hi lo); [lia|].
  destruct (Z.ltb_spec (2 ^ 63) hi); [lia|].
  destruct (Z.ltb_spec lo (- 2 ^ 63)); [lia|].
  destruct (Z.ltb_spec size 0); [lia|].
  simpl. destruct (draw_ints lo hi (Z.to_nat size) g); reflexivity.
Qed.

(** [randint] raises nothing but ValueError. *)
Lemma randint_cases (lo hi size : Z) (g : G) :
  (exists v g', randint lo hi size g = (Ok v, g'))
  \/ randint lo hi size g = (Err ValueError, g).
Proof.
  unfold randint.
  destruct (size =? 0); [left; eauto|].
  destruct ((hi <=? lo) || (2 ^ 63 <? hi) || (lo <? - 2 ^ 63) || (size <? 0)).
  - right; reflexivity.
  - left. destruct (draw_ints lo hi (Z.to_nat size) g) as [v g'].
    exists v, g'; reflexivity.
Qed.

(** A draw of size 0 succeeds whatever the bounds. *)
Lemma randint_draws (lo hi size : Z) (g : G) :
  size = 0 \/ (lo < hi /\ hi <= 2 ^ 63 /\ - 2 ^ 63 <= lo /\ 0 <= size) ->
  randint lo hi size g
  = (Ok (fst (draw_ints lo hi (Z.to_nat size) g)),
     snd (draw_ints lo hi (Z.to_nat size) g)).
Proof.
  intros [->|(H1 & H2 & H3 & H4)]; [reflexivity|].
  apply randint_ok; assumption.
Qed.

Lemma getrandbits_ok (k : Z) (g : G) :
  0 <= k < 2 ^ 31 ->
  getrandbits k g = (Ok (fst (draw_bits k g)), snd (draw_bits k g)).
Proof.
  intros [H0 H1]; unfold getrandbits.
  destruct (Z.ltb_spec k (- 2 ^ 31)); [lia|].
  destruct (Z.leb_spec (2 ^ 31) k); [lia|].
  destruct (Z.ltb_spec k 0); [lia|].
  simpl. destruct (draw_bits k g); reflexivity.
Qed.

(** ** Setup *)

(** The model of the ceiling of [c * log2 q]: the least exponent [k]
    with [q ^ c <= 2 ^ k]. *)
Lemma ceil_mul_log2_spec (c q : Z) :
  1 < q ^ c ->
  2 ^ (ceil_mul_log2 c q - 1) < q ^ c <= 2 ^ ceil_mul_log2 c q.
Proof.
  intros H; unfold ceil_mul_log2.
  pose proof (Z.log2_up_spec (q ^ c) H) as Hs.
  replace (Z.pred (Z.log2_up (q ^ c))) with (Z.log2_up (q ^ c) - 1) in Hs
    by lia.
  exact Hs.
Qed.

(** At the program's values: 2^69 < 10^21 <= 2^70, so the ceiling of
    21 * log2(10) is 70. *)
Lemma lattice_dimension_toy :
  ceil_mul_log2 (2 * 10 + 1) 10 = 70 /\ 2 ^ 69 < 10 ^ 21 <= 2 ^ 70.
Proof. split; [reflexivity|lia]. Qed.

(** C3, as amended.  For every [bit_length] and [base_value], every
    [mod_size] that [random.getrandbits] accepts (0 <= mod_size < 2^31)
    and every generator state, [setup] returns exactly q = 10, d = 10,
    n = 10, N = 70 and chi = 1: neither the arguments nor the initial
    random draw reach the result. *)
Theorem setup_constant (bit_length mod_size base_value : Z) (g : G) :
  0 <= mod_size < 2 ^ 31 ->
  fst (setup bit_length mod_size base_value g) = Ok (10, 10, 10, 70, 1).
Proof.
  intros H; unfold setup, bind.
  rewrite getrandbits_ok by assumption. reflexivity.
Qed.

(** ** Secret keys *)

Lemma secret_key_gen_spec (q d n N chi : Z) (g : G) :
  0 < q <= 2 ^ 63 -> 0 <= n ->
  exists s g',
    secret_key_gen (q, d, n, N, chi) g = (Ok (1 :: s), g')
    /\ length s = Z.to_nat n
    /\ Forall (fun x => 0 <= x < q) s.
Proof.
  intros Hq Hn; unfold secret_key_gen, bind.
  rewrite randint_ok by lia.
  pose proof (draw_ints_length 0 q (Z.to_nat (n + 1)) g) as Hlen.
  pose proof (draw_ints_range 0 q (Z.to_nat (n + 1)) g (proj1 Hq)) as Hrng.
  destruct (draw_ints 0 q (Z.to_nat (n + 1)) g) as [v g']; simpl in *.
  replace (Z.to_nat (n + 1)) with (S (Z.to_nat n)) in Hlen by lia.
  destruct v as [|x s]; [discriminate|].
  exists s, g'; repeat split.
  - simpl in Hlen; lia.
  - inversion Hrng; assumption.
Qed.

(** C5, as amended.  For every parameter tuple with 0 < q <= 2^63 and
    n >= 0 and every generator state, [secret_key_gen] returns a vector
    of length n + 1 whose element 0 is exactly 1 and whose elements 1..n
    all lie in [0, q). *)
Theorem secret_key_gen_invariant (q d n N chi : Z) (g : G) :
  0 < q <= 2 ^ 63 -> 0 <= n ->
  exists sk,
    fst (secret_key_gen (q, d, n, N, chi) g) = Ok sk
    /\ Z.of_nat (length sk) = n + 1
    /\ nth 0 sk 0 = 1
    /\ Forall (fun x => 0 <= x < q) (tl sk).
Proof.
  intros Hq Hn.
  destruct (secret_key_gen_spec q d n N chi g Hq Hn) as (s & g' & E & L & R).
  exists (1 :: s); rewrite E; simpl; repeat split; auto; lia.
Qed.

(** ** Decryption *)

Lemma broadcast2_cases {C} (f : Z -> Z -> C) (u v : vector) :
  (exists w, broadcast2 f u v = Ok w)
  \/ broadcast2 f u v = Err ValueError.
Proof.
  unfold broadcast2.
  destruct (Nat.eqb (length u) (length v)); [left; eauto|].
  destruct u as [|x [|x' u]]; destruct v as [|y [|y' v]]; eauto.
Qed.

(** C9, as amended.  For every parameter tuple with 0 < q < 2^63 and
    every two 64-bit vectors of equal length, whatever their entries,
    [decrypt] returns 0 or 1 and leaves the generator alone. *)
Theorem decrypt_bit (q d n N chi : Z) (sk ciphertext : vector) (g : G) :
  0 < q <= int64_max ->
  Forall int64 sk -> Forall int64 ciphertext ->
  length ciphertext = length sk ->
  exists b,
    decrypt (q, d, n, N, chi) sk ciphertext g = (Ok b, g)
    /\ (b = 0 \/ b = 1).
Proof.
  intros Hq _ _ Hlen; unfold decrypt, bind, lift, np_multiply, broadcast2.
  rewrite Hlen, Nat.eqb_refl.
  rewrite np_mod_ok by (apply int64_pos; lia).
  rewrite np_mod_ok by (unfold int64, int64_min, int64_max; lia).
  eexists; split; [reflexivity|].
  rewrite (floor_mod_pos _ 2) by lia.
  match goal with |- ?x mod 2 = 0 \/ _ =>
    pose proof (Z.mod_pos_bound x 2 ltac:(lia)) end.
  lia.
Qed.

(** C10.  [decrypt] never advances the generator, its result does not
    depend on the generator state, and of the five parameters only [q]
    reaches the result. *)
Theorem decrypt_deterministic (q d n N chi d' n' N' chi' : Z)
    (sk ciphertext : vector) (g g' : G) :
  snd (decrypt (q, d, n, N, chi) sk ciphertext g) = g
  /\ fst (decrypt (q, d, n, N, chi) sk ciphertext g)
     = fst (decrypt (q, d', n', N', chi') sk ciphertext g').
Proof.
  unfold decrypt, bind, lift.
  destruct (np_multiply ciphertext sk); simpl; auto.
  destruct (np_mod (np_sum a) q); simpl; auto.
Qed.

(** C8, as amended.  [decrypt] has no check of its own: the
    element-wise product follows NumPy's broadcasting.  When the two
    lengths differ and neither is 1 it raises ValueError (the dimension
    mismatch) without touching the generator, whatever the parameters.
    When they are equal, or one of them is 1, the vectors are 64-bit
    and q fits in 64 bits, it returns a value. *)
Theorem decrypt_dimension (q d n N chi : Z) (sk ciphertext : vector) (g : G) :
  (length ciphertext <> length sk ->
   length ciphertext <> 1%nat -> length sk <> 1%nat ->
   decrypt (q, d, n, N, chi) sk ciphertext g = (Err ValueError, g))
  /\ (int64 q -> Forall int64 sk -> Forall int64 ciphertext ->
      length ciphertext = length sk
      \/ length ciphertext = 1%nat \/ length sk = 1%nat ->
      exists b, decrypt (q, d, n, N, chi) sk ciphertext g = (Ok b, g)).
Proof.
  unfold decrypt, bind, lift, np_multiply, broadcast2.
  split.
  - intros Hne Hc Hs.
    destruct (Nat.eqb_spec (length ciphertext) (length sk)); [contradiction|].
    destruct ciphertext as [|x [|x' c]]; destruct sk as [|y [|y' s]];
      simpl in *; try reflexivity; contradiction.
  - intros Hq _ _ H.
    assert (H2 : int64 2) by (unfold int64, int64_min, int64_max; lia).
    destruct (Nat.eqb_spec (length ciphertext) (length sk)).
    { rewrite (np_mod_ok _ q Hq), (np_mod_ok _ 2 H2); eauto. }
    destruct ciphertext as [|x [|x' c]]; destruct sk as [|y [|y' s]];
      simpl in *;
      try (rewrite (np_mod_ok _ q Hq), (np_mod_ok _ 2 H2); eauto);
      destruct H as [H|[H|H]]; try discriminate; try contradiction.
Qed.

(** ** Encryption: the message check *)

(** C7.  A message other than 0 and 1 makes [encrypt] raise its
    assertion error at once: the generator state is returned unchanged
    and neither the parameters nor the public key are looked at.  For a
    message 0 or 1 that error is not raised. *)
Theorem encrypt_message_check (p : params) (pk : matrix) (message : Z) (g : G) :
  (message <> 0 -> message <> 1 ->
   encrypt p pk message g
   = (Err (AssertionError "Message must be either 0 or 1"), g))
  /\ (message = 0 \/ message = 1 ->
      forall msg, fst (encrypt p pk message g) <> Err (AssertionError msg)).
Proof.
  destruct p as [[[[q d] n] N] chi]; unfold encrypt; split.
  - intros H0 H1.
    destruct (Z.eqb_spec message 0); [contradiction|].
    destruct (Z.eqb_spec message 1); [contradiction|]. reflexivity.
  - intros Hm msg.
    assert (E : negb ((message =? 0) || (message =? 1)) = false).
    { destruct Hm; subst; reflexivity. }
    rewrite E; unfold bind, lift, ret.
    destruct (randint_cases 0 2 N g) as [(r & g' & Er)|Er]; rewrite Er;
      simpl; [|discriminate].
    unfold np_dot.
    destruct (Nat.eqb (ncols (transpose pk)) (length r)); simpl;
      [|discriminate].
    match goal with
    | |- context [np_add ?u ?v] =>
        destruct (broadcast2_cases (fun x y => wrap64 (x + y)) u v)
          as [(w & Ew)|Ew]; unfold np_add; rewrite Ew; simpl;
          [|discriminate]
    end.
    unfold np_mod_vec; destruct (int64b q); simpl; discriminate.
Qed.

(** ** Public keys *)

(** The correctness identity of one row, against a secret key that
    starts with 1. *)
Lemma public_key_row_identity (q : Z) (s r : list Z) (ei : Z) :
  dotZ (public_key_row q s r ei) (1 :: s) mod q = (2 * ei) mod q.
Proof.
  unfold public_key_row; cbn [dotZ].
  rewrite Z.mul_1_r, Zplus_mod, Zmod_mod.
  rewrite (dotZ_mod_l q Z.opp), dotZ_opp_l, <- Zplus_mod.
  f_equal; ring.
Qed.

Lemma public_key_row_length (q : Z) (s r : list Z) (ei : Z) :
  length (public_key_row q s r ei) = S (length r).
Proof. unfold public_key_row; simpl; now rewrite length_map. Qed.

Lemma public_key_row_range (q : Z) (s r : list Z) (ei : Z) :
  0 < q -> Forall (fun x => 0 <= x < q) (public_key_row q s r ei).
Proof.
  intros Hq; unfold public_key_row; constructor.
  - apply Z.mod_pos_bound; assumption.
  - apply Forall_map, Forall_forall; intros x _.
    apply Z.mod_pos_bound; assumption.
Qed.

Lemma Forall_range_le (q : Z) (l : list Z) :
  Forall (fun x => 0 <= x < q) l -> Forall (fun x => 0 <= x <= q - 1) l.
Proof. apply Forall_impl; intros; lia. Qed.

Lemma dotZ_range (q n : Z) (r s : list Z) :
  0 < q -> 0 <= n ->
  length r = Z.to_nat n ->
  Forall (fun x => 0 <= x < q) r -> Forall (fun x => 0 <= x < q) s ->
  0 <= dotZ r s <= n * ((q - 1) * (q - 1)).
Proof.
  intros Hq Hn Hl Hr Hs.
  pose proof (dotZ_bounds (q - 1) (q - 1) r s ltac:(lia) ltac:(lia)
                (Forall_range_le _ _ Hr) (Forall_range_le _ _ Hs)) as H.
  rewrite Hl, Z2Nat.id in H by lia. exact H.
Qed.

(** The row that the 64-bit operations compute is the exact row. *)
Lemma public_key_row_computed (q n : Z) (s r : list Z) (ei : Z) :
  0 < q -> 0 <= n -> fits64 q n ->
  length r = Z.to_nat n ->
  Forall (fun x => 0 <= x < q) r -> Forall (fun x => 0 <= x < q) s ->
  0 <= ei < q ->
  computed_row q s r ei = public_key_row q s r ei.
Proof.
  intros Hq Hn Hf Hl Hr Hs He. unfold fits64, int64_max in Hf.
  pose proof (dotZ_range q n r s Hq Hn Hl Hr Hs) as Hd.
  assert (Hq2 : (q - 1) * (q - 1) + 2 * (q - 1) < q * q) by nia.
  assert (Hnq : n * ((q - 1) * (q - 1)) <= n * (q * q)) by nia.
  unfold computed_row.
  rewrite (wrap64_id (dotZ r s))
    by (unfold int64, int64_min, int64_max; nia).
  rewrite (wrap64_id (2 * ei))
    by (unfold int64, int64_min, int64_max; nia).
  rewrite (wrap64_id (dotZ r s + 2 * ei))
    by (unfold int64, int64_min, int64_max; nia).
  unfold public_key_row; cbn [app map].
  rewrite floor_mod_pos by assumption. f_equal.
  rewrite map_map. apply map_ext_Forall.
  revert Hr; apply Forall_impl; intros x Hx.
  rewrite floor_mod_pos by assumption.
  rewrite wrap64_id by (unfold int64, int64_min, int64_max; nia).
  reflexivity.
Qed.

(** The check of the assertion, on one row. *)
Lemma public_key_row_check (q n : Z) (s r : list Z) (ei : Z) :
  0 < q -> 0 <= n -> fits64 q n ->
  length r = Z.to_nat n ->
  Forall (fun x => 0 <= x < q) r -> Forall (fun x => 0 <= x < q) s ->
  0 <= ei < q ->
  (floor_mod (wrap64 (dotZ (public_key_row q s r ei) (1 :: s))) q
   =? floor_mod (wrap64 (2 * ei)) q) = true.
Proof.
  intros Hq Hn Hf Hl Hr Hs He. apply Z.eqb_eq.
  pose proof (public_key_row_identity q s r ei) as Hid.
  unfold fits64, int64_max in Hf.
  assert (Hb : 0 <= dotZ (public_key_row q s r ei) (1 :: s)
               <= (q - 1) + n * ((q - 1) * (q - 1))).
  { unfold public_key_row; cbn [dotZ].
    pose proof (Z.mod_pos_bound (dotZ r s + 2 * ei) q Hq).
    assert (Hm : Forall (fun x => 0 <= x < q) (map (fun x => (- x) mod q) r)).
    { apply Forall_map, Forall_forall; intros x _.
      apply Z.mod_pos_bound; assumption. }
    pose proof (dotZ_range q n _ s Hq Hn
                  ltac:(rewrite length_map; exact Hl) Hm Hs).
    lia. }
  assert (Hnq : n * ((q - 1) * (q - 1)) <= n * (q * q)) by nia.
  rewrite !floor_mod_pos by assumption.
  rewrite (wrap64_id (2 * ei))
    by (unfold int64, int64_min, int64_max; nia).
  rewrite wrap64_id by (unfold int64, int64_min, int64_max; nia).
  exact Hid.
Qed.

Lemma drawn_A_length (q n N : Z) (g : G) :
  length (drawn_A q n N g) = Z.to_nat N.
Proof. apply chunks_length. Qed.

Lemma drawn_A_rows (q n N : Z) (g : G) :
  0 < q -> 0 <= n -> 0 <= N ->
  Forall (fun r => length r = Z.to_nat n /\ Forall (fun x => 0 <= x < q) r)
    (drawn_A q n N g).
Proof.
  intros Hq Hn HN; unfold drawn_A.
  apply Forall_and.
  - apply chunks_rows. rewrite draw_ints_length. lia.
  - apply chunks_Forall, draw_ints_range; assumption.
Qed.

Lemma drawn_e_length (q n N : Z) (g : G) :
  length (drawn_e q n N g) = Z.to_nat N.
Proof. apply draw_ints_length. Qed.

Lemma drawn_e_range (q n N : Z) (g : G) :
  0 < q -> Forall (fun x => 0 <= x < q) (drawn_e q n N g).
Proof. intros Hq; apply draw_ints_range; assumption. Qed.

Lemma fits64_q (q n : Z) : 0 < q -> 0 <= n -> fits64 q n -> q <= 2 ^ 63.
Proof. unfold fits64, int64_max; intros; nia. Qed.

Lemma fits64_int64 (q n : Z) : 0 < q -> 0 <= n -> fits64 q n -> int64 q.
Proof.
  unfold fits64, int64, int64_min, int64_max; intros; split; nia.
Qed.

(** [public_key_gen] past its draws, for dimensions that [reshape]
    accepts, a modulus that the draws and [%] accept and a secret key
    whose tail has n entries: the length test of the second product,
    then the assertion, on the rows that the 64-bit operations
    compute. *)
Lemma public_key_gen_unfold (q d n N chi : Z) (sk : vector) (g : G) :
  0 <= n -> 0 <= N -> N = 0 \/ 0 < q <= 2 ^ 63 -> int64 q ->
  length (tl sk) = Z.to_nat n ->
  public_key_gen (q, d, n, N, chi) sk g
  = (if Nat.eqb (1 + Z.to_nat n) (length sk)
     then
       if np_all
            (map2 (fun r ei =>
                     floor_mod
                       (wrap64 (dotZ (computed_row q (tl sk) r ei) sk)) q
                     =? floor_mod (wrap64 (2 * ei)) q)
               (drawn_A q n N g) (drawn_e q n N g))
       then Ok (mkMatrix (1 + Z.to_nat n)
                  (map2 (computed_row q (tl sk))
                     (drawn_A q n N g) (drawn_e q n N g)))
       else Err (AssertionError "Public key generation failed")
     else Err ValueError,
     after_key_draws q n N g).
Proof.
  intros Hn HN Hq Hq64 Hs.
  pose proof (drawn_A_length q n N g) as HAl.
  pose proof (drawn_e_length q n N g) as Hel.
  unfold public_key_gen, bind, lift.
  rewrite randint_draws by (destruct Hq as [->|Hq]; [left; lia|right; nia]).
  unfold reshape. rewrite draw_ints_length.
  destruct (Z.ltb_spec N 0); [lia|].
  destruct (Z.ltb_spec n 0); [lia|].
  rewrite Z2Nat.id, Z.eqb_refl by nia. cbn [orb negb].
  rewrite randint_draws
    by (destruct Hq as [->|Hq]; [left; reflexivity|right; lia]).
  fold (drawn_A q n N g). fold (drawn_e q n N g).
  fold (after_key_draws q n N g).
  unfold np_dot; cbn [ncols rows].
  rewrite Hs, Nat.eqb_refl.
  unfold np_add, np_scale, broadcast2.
  rewrite !length_map, HAl, Hel, Nat.eqb_refl.
  rewrite map2_map_l, map2_map_r.
  rewrite map2_length, HAl, Hel, Nat.min_id.
  destruct (Z.ltb_spec 1 0); [lia|].
  replace (N * 1) with N by lia.
  rewrite Z2Nat.id, Z.eqb_refl by lia. cbn [orb negb].
  change (Z.to_nat 1) with 1%nat.
  rewrite chunks_column by (rewrite map2_length; lia).
  unfold np_hstack, np_negative, nrows; cbn [ncols rows].
  rewrite !length_map, map2_length, HAl, Hel, Nat.min_id, Nat.eqb_refl.
  rewrite np_mod_mat_ok by assumption. cbn [ncols rows].
  rewrite map_map2.
  match goal with
  | |- context [mkMatrix _ ?R] =>
      assert (ER : R = map2 (computed_row q (tl sk))
                         (drawn_A q n N g) (drawn_e q n N g))
  end.
  { rewrite map_map2, map2_map_r, map2_diag_l. reflexivity. }
  rewrite ER; clear ER.
  destruct (Nat.eqb (1 + Z.to_nat n) (length sk)); [|reflexivity].
  rewrite !np_mod_vec_ok by assumption.
  unfold np_equal, broadcast2.
  rewrite !map_map2, map_map.
  rewrite length_map, map2_length, HAl, Hel, Nat.min_id, Nat.eqb_refl.
  rewrite map2_map_r, map2_diag_r.
  match goal with |- context [np_all ?l] => destruct (np_all l) end;
    reflexivity.
Qed.

(** What [public_key_gen] returns on a secret key [1 :: s] whose tail
    has n entries of [0, q), when nothing overflows. *)
Lemma public_key_gen_spec (q d n N chi : Z) (s : vector) (g : G) :
  0 < q -> 0 <= n -> 0 <= N -> fits64 q n ->
  length s = Z.to_nat n ->
  Forall (fun x => 0 <= x < q) s ->
  public_key_gen (q, d, n, N, chi) (1 :: s) g
  = (Ok (mkMatrix (1 + Z.to_nat n)
           (map2 (public_key_row q s) (drawn_A q n N g) (drawn_e q n N g))),
     after_key_draws q n N g).
Proof.
  intros Hq Hn HN Hf Hs Hsr.
  pose proof (fits64_q q n Hq Hn Hf) as Hq63.
  pose proof (drawn_A_rows q n N g Hq Hn HN) as HA.
  pose proof (drawn_e_range q n N g Hq) as He.
  rewrite (public_key_gen_unfold q d n N chi (1 :: s) g Hn HN
             (or_intror (conj Hq Hq63)) (fits64_int64 q n Hq Hn Hf) Hs).
  cbn [tl length]. rewrite Hs, Nat.eqb_refl.
  rewrite (forallb_map2_true
             (fun r => length r = Z.to_nat n
                       /\ Forall (fun x => 0 <= x < q) r)
             (fun ei => 0 <= ei < q))
    by (try assumption; intros r ei [Hl Hr] Hei;
        rewrite (public_key_row_computed q n) by assumption;
        apply (public_key_row_check q n); assumption).
  rewrite (map2_ext_Forall
             (fun r => length r = Z.to_nat n
                       /\ Forall (fun x => 0 <= x < q) r)
             (fun ei => 0 <= ei < q) _ (public_key_row q s) _ _ HA He)
    by (intros r ei [Hl Hr] Hei;
        apply (public_key_row_computed q n); assumption).
  reflexivity.
Qed.

(** The draws behind [drawn_A] and [drawn_e] are the two calls of
    [randint] in [public_key_gen], in their order. *)
Lemma key_draws_spec (q n N : Z) (g : G) :
  0 < q <= 2 ^ 63 -> 0 <= n -> 0 <= N ->
  exists a g1,
    randint 0 q (N * n) g = (Ok a, g1)
    /\ reshape a N n = Ok (mkMatrix (Z.to_nat n) (drawn_A q n N g))
    /\ randint 0 q N g1 = (Ok (drawn_e q n N g), after_key_draws q n N g).
Proof.
  intros Hq Hn HN.
  exists (fst (draw_ints 0 q (Z.to_nat (N * n)) g)),
         (snd (draw_ints 0 q (Z.to_nat (N * n)) g)).
  rewrite !randint_ok by nia. repeat split.
  unfold reshape. rewrite draw_ints_length.
  destruct (Z.ltb_spec N 0); [lia|].
  destruct (Z.ltb_spec n 0); [lia|].
  rewrite Z2Nat.id, Z.eqb_refl by nia. reflexivity.
Qed.

(** C2, as amended.  Let 0 < q, n >= 0, N >= 0 and (n + 1) q^2 fit in
    64 bits, and let sk have length n + 1, sk[0] = 1 and its other
    entries in [0, q).  Then for every generator state [public_key_gen]
    returns a public key pk (the assertion does not fire and nothing
    else is raised), and every row i of pk satisfies
    (pk[i] . sk) mod q = (2 e[i]) mod q for the noise e drawn in that
    call. *)
Theorem public_key_identity (q d n N chi : Z) (sk : vector) (g : G) :
  0 < q -> 0 <= n -> 0 <= N -> fits64 q n ->
  Z.of_nat (length sk) = n + 1 -> nth 0 sk 0 = 1 ->
  Forall (fun x => 0 <= x < q) (tl sk) ->
  exists pk,
    public_key_gen (q, d, n, N, chi) sk g = (Ok pk, after_key_draws q n N g)
    /\ Z.of_nat (nrows pk) = N
    /\ forall i, (i < nrows pk)%nat ->
         dotZ (nth i (rows pk) []) sk mod q
         = (2 * nth i (drawn_e q n N g) 0) mod q.
Proof.
  intros Hq Hn HN Hf Hl H0 Hr.
  destruct sk as [|x s]; simpl in Hl, H0, Hr; [lia|]. subst x.
  assert (Hs : length s = Z.to_nat n) by lia. cbn [tl].
  rewrite (public_key_gen_spec q d n N chi s g) by assumption.
  eexists; split; [reflexivity|].
  pose proof (drawn_A_length q n N g) as HAl.
  pose proof (drawn_e_length q n N g) as Hel.
  unfold nrows; cbn [rows]. rewrite map2_length, HAl, Hel, Nat.min_id.
  split; [lia|]. intros i Hi.
  rewrite (nth_map2 _ _ _ i [] 0 []) by lia.
  apply public_key_row_identity.
Qed.

(** C4, as amended.  Under the hypotheses of the identity above
    (sk of length n + 1 with sk[0] = 1 and its other entries in [0, q),
    no 64-bit overflow), [public_key_gen] returns a matrix of shape
    N x (n + 1) with all entries in [0, q); in row i, entry 0 is
    (A[i] . sk[1:] + 2 e[i]) mod q and entries 1..n are (- A[i]) mod q,
    for the A and e drawn in that call. *)
Theorem public_key_structure (q d n N chi : Z) (sk : vector) (g : G) :
  0 < q -> 0 <= n -> 0 <= N -> fits64 q n ->
  Z.of_nat (length sk) = n + 1 -> nth 0 sk 0 = 1 ->
  Forall (fun x => 0 <= x < q) (tl sk) ->
  exists pk,
    fst (public_key_gen (q, d, n, N, chi) sk g) = Ok pk
    /\ Z.of_nat (nrows pk) = N
    /\ Z.of_nat (ncols pk) = n + 1
    /\ wf_matrix pk
    /\ Forall (Forall (fun x => 0 <= x < q)) (rows pk)
    /\ forall i, (i < nrows pk)%nat ->
         nth i (rows pk) []
         = ((dotZ (nth i (drawn_A q n N g) []) (tl sk)
             + 2 * nth i (drawn_e q n N g) 0) mod q)
           :: map (fun x => (- x) mod q) (nth i (drawn_A q n N g) []).
Proof.
  intros Hq Hn HN Hf Hl H0 Hr.
  destruct sk as [|x s]; simpl in Hl, H0, Hr; [lia|]. subst x.
  assert (Hs : length s = Z.to_nat n) by lia. cbn [tl].
  rewrite (public_key_gen_spec q d n N chi s g) by assumption.
  eexists; split; [reflexivity|].
  pose proof (drawn_A_length q n N g) as HAl.
  pose proof (drawn_e_length q n N g) as Hel.
  pose proof (drawn_A_rows q n N g Hq Hn HN) as HA.
  pose proof (drawn_e_range q n N g Hq) as He.
  unfold nrows, wf_matrix; cbn [rows ncols].
  rewrite map2_length, HAl, Hel, Nat.min_id.
  split; [lia|]. split; [lia|]. split; [|split].
  - apply (Forall_map2 _ _ _ _ _ _ HA He).
    intros r ei [Hrl _] _. rewrite public_key_row_length; lia.
  - apply (Forall_map2 _ _ _ _ _ _ HA He).
    intros r ei _ _. apply public_key_row_range; assumption.
  - intros i Hi. rewrite (nth_map2 _ _ _ i [] 0 []) by lia. reflexivity.
Qed.

(** ** Encryption *)

Lemma drawn_r_length (N : Z) (g : G) : length (drawn_r N g) = Z.to_nat N.
Proof. apply draw_ints_length. Qed.

Lemma drawn_r_binary (N : Z) (g : G) :
  Forall (fun x => x = 0 \/ x = 1) (drawn_r N g).
Proof.
  unfold drawn_r.
  pose proof (draw_ints_range 0 2 (Z.to_nat N) g ltac:(lia)) as H.
  revert H; apply Forall_impl; intros; lia.
Qed.

Lemma map2_zeros {C} (f : Z -> Z -> C) (g0 : nat -> Z) (k a : nat) :
  map2 f (repeat 0 k) (map g0 (seq (S a) k))
  = map (fun j => f (message_entry 0 j) (g0 j)) (seq (S a) k).
Proof.
  revert a; induction k as [|k IH]; intros a; simpl; auto.
  now rewrite IH.
Qed.

Lemma map2_message_vector {C} (f : Z -> Z -> C) (g0 : nat -> Z)
    (m : Z) (k : nat) :
  map2 f (m :: repeat 0 k) (map g0 (seq 0 (S k)))
  = map (fun j => f (message_entry m j) (g0 j)) (seq 0 (S k)).
Proof.
  cbn [seq map map2]. f_equal.
  rewrite map2_zeros. apply map_ext_in.
  intros j Hj. apply in_seq in Hj.
  destruct j as [|j]; [lia|reflexivity].
Qed.

(** What [encrypt] returns on a message bit and a public key of shape
    N x (n + 1), for a modulus that fits in 64 bits. *)
Lemma encrypt_spec (q d n N chi : Z) (pk : matrix) (m : Z) (g : G) :
  int64 q ->
  m = 0 \/ m = 1 ->
  Z.of_nat (nrows pk) = N ->
  Z.of_nat (ncols pk) = n + 1 ->
  encrypt (q, d, n, N, chi) pk m g
  = (Ok (ciphertext_computed q n pk m (drawn_r N g)), after_r N g).
Proof.
  intros Hq Hm HN Hc; unfold encrypt.
  replace (negb ((m =? 0) || (m =? 1))) with false
    by (destruct Hm; subst; reflexivity).
  unfold bind, lift.
  rewrite randint_ok by lia.
  fold (drawn_r N g); fold (after_r N g).
  unfold np_dot, transpose; cbn [ncols rows].
  rewrite drawn_r_length.
  replace (Nat.eqb (nrows pk) (Z.to_nat N)) with true
    by (symmetry; apply Nat.eqb_eq; lia).
  rewrite map_map. fold (column pk).
  unfold ciphertext_computed, np_add, broadcast2.
  assert (Hcases : n = -1 \/ 0 <= n) by lia.
  destruct Hcases as [Hn1|Hn].
  - subst n. replace (ncols pk) with 0%nat by lia.
    cbn. rewrite np_mod_vec_ok by assumption. reflexivity.
  - replace (ncols pk) with (S (Z.to_nat n)) by lia.
    replace (Z.to_nat (n + 1)) with (S (Z.to_nat n)) by lia.
    cbn [length]. rewrite repeat_length, length_map, length_seq.
    rewrite Nat.eqb_refl.
    rewrite (map2_message_vector (fun x y => wrap64 (x + y))
               (fun j => wrap64 (dotZ (map (fun r => nth j r 0) (rows pk))
                                    (drawn_r N g)))).
    rewrite np_mod_vec_ok by assumption.
    rewrite map_map. reflexivity.
Qed.

Lemma column_range (q : Z) (pk : matrix) (j : nat) :
  0 < q ->
  Forall (Forall (fun x => 0 <= x < q)) (rows pk) ->
  Forall (fun x => 0 <= x <= q - 1) (column pk j).
Proof.
  intros Hq H; unfold column. apply Forall_map.
  revert H; apply Forall_impl; intros r Hr.
  destruct (Nat.lt_ge_cases j (length r)) as [Hj|Hj].
  - rewrite Forall_forall in Hr.
    specialize (Hr (nth j r 0) (nth_In r 0 Hj)). lia.
  - rewrite nth_overflow by assumption. lia.
Qed.

(** Without overflow the computed ciphertext is the exact one. *)
Lemma ciphertext_computed_exact (q n N : Z) (pk : matrix) (m : Z) (r : vector) :
  0 < q -> m = 0 \/ m = 1 ->
  Z.of_nat (nrows pk) = N -> N * q <= int64_max ->
  Forall (Forall (fun x => 0 <= x < q)) (rows pk) ->
  Forall (fun x => x = 0 \/ x = 1) r ->
  ciphertext_computed q n pk m r = ciphertext_exact q n pk m r.
Proof.
  intros Hq Hm HN Hb Hpk Hr.
  unfold ciphertext_computed, ciphertext_exact.
  apply map_ext; intros j.
  pose proof (column_range q pk j Hq Hpk) as Hcol.
  assert (Hr' : Forall (fun y => 0 <= y <= 1) r).
  { revert Hr; apply Forall_impl; intros; lia. }
  pose proof (dotZ_bounds (q - 1) 1 (column pk j) r
                ltac:(lia) ltac:(lia) Hcol Hr') as Hd.
  unfold column in Hd at 3; rewrite length_map in Hd.
  fold (nrows pk) in Hd. rewrite HN in Hd.
  assert (Hme : 0 <= message_entry m j <= 1).
  { unfold message_entry; destruct (Nat.eqb j 0); lia. }
  unfold int64_max in Hb.
  rewrite (wrap64_id (dotZ (column pk j) r))
    by (unfold int64, int64_min, int64_max; nia).
  rewrite wrap64_id by (unfold int64, int64_min, int64_max; nia).
  apply floor_mod_pos; assumption.
Qed.

Lemma ciphertext_exact_length (q n : Z) (pk : matrix) (m : Z) (r : vector) :
  length (ciphertext_exact q n pk m r) = Z.to_nat (n + 1).
Proof. unfold ciphertext_exact; now rewrite length_map, length_seq. Qed.

Lemma ciphertext_computed_length (q n : Z) (pk : matrix) (m : Z) (r : vector) :
  length (ciphertext_computed q n pk m r) = Z.to_nat (n + 1).
Proof. unfold ciphertext_computed; now rewrite length_map, length_seq. Qed.

Lemma ciphertext_computed_range (q n : Z) (pk : matrix) (m : Z) (r : vector) :
  0 < q -> Forall (fun x => 0 <= x < q) (ciphertext_computed q n pk m r).
Proof.
  intros Hq; unfold ciphertext_computed.
  apply Forall_map, Forall_forall; intros j _.
  apply floor_mod_range; assumption.
Qed.

(** ** Decryption of a ciphertext *)

(** The parity of the inner product of the exact ciphertext with the
    secret key, when every row of the public key has an even inner
    product with the secret key and q is even. *)
Lemma ciphertext_parity (q n : Z) (pk : matrix) (m : Z) (r s : vector) :
  (2 | q) -> 0 <= n ->
  wf_matrix pk -> ncols pk = S (Z.to_nat n) ->
  length s = Z.to_nat n ->
  length r = nrows pk ->
  Forall (fun row => dotZ row (1 :: s) mod 2 = 0) (rows pk) ->
  dotZ (ciphertext_exact q n pk m r) (1 :: s) mod 2 = m mod 2.
Proof.
  intros H2 Hn Hwf Hc Hs Hr Hev. unfold ciphertext_exact.
  rewrite <- (dotZ_mod_l 2
    (fun j => (message_entry m j + dotZ (column pk j) r) mod q)).
  rewrite (map_ext
    (fun j => ((message_entry m j + dotZ (column pk j) r) mod q) mod 2)
    (fun j => (message_entry m j + dotZ (column pk j) r) mod 2))
    by (intros j; apply Z.mod_mod_divide; assumption).
  rewrite (dotZ_mod_l 2
    (fun j => message_entry m j + dotZ (column pk j) r)).
  rewrite (dotZ_map_add (message_entry m) (fun j => dotZ (column pk j) r)).
  replace (Z.to_nat (n + 1)) with (S (Z.to_nat n)) by lia.
  unfold column. rewrite <- Hc at 2.
  rewrite (dotZ_transpose (ncols pk) (rows pk) r (1 :: s) Hwf Hr).
  rewrite Zplus_mod.
  rewrite (dotZ_even_l (map (fun row => dotZ row (1 :: s)) (rows pk)) r)
    by (apply Forall_map; exact Hev).
  cbn [seq map dotZ]. rewrite <- seq_shift, map_map.
  rewrite (map_ext (fun j => message_entry m (S j)) (fun _ => 0))
    by reflexivity.
  rewrite map_zero_seq, dotZ_repeat0_l. unfold message_entry; simpl.
  rewrite Z.add_0_r, Zmod_mod. f_equal; ring.
Qed.

(** [decrypt] on a secret key [1 :: s] and a ciphertext with entries in
    [0, q): nothing overflows, and the result is the parity of the
    inner product reduced modulo q. *)
Lemma decrypt_spec (q d n N chi : Z) (s c : vector) (g : G) :
  0 < q -> 0 <= n -> fits64 q n ->
  length s = Z.to_nat n -> Forall (fun x => 0 <= x < q) s ->
  length c = S (Z.to_nat n) -> Forall (fun x => 0 <= x < q) c ->
  decrypt (q, d, n, N, chi) (1 :: s) c g
  = (Ok ((dotZ c (1 :: s) mod q) mod 2), g).
Proof.
  intros Hq Hn Hf Hs Hsr Hc Hcr.
  unfold fits64, int64_max in Hf.
  assert (Hqq : q * q <= (n + 1) * q * q) by nia.
  assert (Hsk : Forall (fun y => 0 <= y <= q) (1 :: s)).
  { constructor; [lia|]. revert Hsr; apply Forall_impl; intros; lia. }
  unfold decrypt, bind, lift, np_multiply, broadcast2.
  cbn [length]. rewrite Hc, Hs, Nat.eqb_refl.
  rewrite (np_mod_ok _ q)
    by (unfold int64, int64_min, int64_max; split; nia).
  rewrite (np_mod_ok _ 2) by (unfold int64, int64_min, int64_max; lia).
  rewrite (map2_ext_Forall (fun x => 0 <= x < q) (fun y => 0 <= y <= q)
             _ Z.mul c (1 :: s) Hcr Hsk)
    by (intros x y Hx Hy; apply wrap64_id;
        unfold int64, int64_min, int64_max; nia).
  unfold np_sum. rewrite sumZ_map2_mul.
  pose proof (dotZ_bounds (q - 1) q c (1 :: s) ltac:(lia) ltac:(lia)
                (Forall_range_le _ _ Hcr) Hsk) as Hd.
  rewrite Hc in Hd.
  replace (Z.of_nat (S (Z.to_nat n))) with (n + 1) in Hd by lia.
  rewrite wrap64_id by (unfold int64, int64_min, int64_max; nia).
  rewrite !floor_mod_pos by lia. reflexivity.
Qed.

(** C6, as amended.  Let 0 < q < 2^63, the message be 0 or 1 and pk
    be a 64-bit matrix of shape N x (n + 1).  For every generator state
    [encrypt] draws a binary vector r of length N and returns a
    ciphertext of length n + 1 with all entries in [0, q), whose entry
    j is (m_j + pk^T[j] . r) mod q with the sum and the inner product
    taken in 64-bit arithmetic; when the entries of pk lie in [0, q)
    and N q fits in 64 bits, that is the exact integer value
    ([m, 0, ..., 0] + pk^T r) mod q. *)
Theorem encrypt_ciphertext (q d n N chi : Z) (pk : matrix) (m : Z) (g : G) :
  0 < q <= int64_max -> m = 0 \/ m = 1 ->
  wf_matrix pk -> Forall (Forall int64) (rows pk) ->
  Z.of_nat (nrows pk) = N -> Z.of_nat (ncols pk) = n + 1 ->
  exists r c,
    randint 0 2 N g = (Ok r, after_r N g)
    /\ Z.of_nat (length r) = N
    /\ Forall (fun x => x = 0 \/ x = 1) r
    /\ encrypt (q, d, n, N, chi) pk m g = (Ok c, after_r N g)
    /\ Z.of_nat (length c) = n + 1
    /\ Forall (fun x => 0 <= x < q) c
    /\ c = ciphertext_computed q n pk m r
    /\ (Forall (Forall (fun x => 0 <= x < q)) (rows pk) ->
        N * q <= int64_max ->
        c = ciphertext_exact q n pk m r).
Proof.
  intros [Hq Hq64] Hm Hwf _ HN Hc.
  exists (drawn_r N g), (ciphertext_computed q n pk m (drawn_r N g)).
  split; [rewrite randint_ok by lia; reflexivity|].
  split; [rewrite drawn_r_length; lia|].
  split; [apply drawn_r_binary|].
  split; [apply encrypt_spec; try assumption; apply int64_pos; assumption|].
  split; [rewrite ciphertext_computed_length; lia|].
  split; [apply ciphertext_computed_range; assumption|].
  split; [reflexivity|].
  intros Hpk Hb.
  apply (ciphertext_computed_exact q n N); auto using drawn_r_binary.
Qed.

(** ** The round trip *)

Lemma public_key_rows_even (q : Z) (s : vector) (A : list (list Z)) (e : vector) :
  (2 | q) ->
  Forall (fun row => dotZ row (1 :: s) mod 2 = 0)
    (map2 (public_key_row q s) A e).
Proof.
  intros H2.
  apply (Forall_map2 (fun _ => True) (fun _ => True));
    try (apply Forall_forall; intros; exact I).
  intros r ei _ _.
  rewrite <- (Z.mod_mod_divide _ q 2 H2), public_key_row_identity.
  rewrite (Z.mod_mod_divide _ q 2 H2).
  rewrite Z.mul_comm; apply Z.mod_mul; lia.
Qed.

(** Key generation, encryption and decryption in sequence, each from a
    generator state of its own, for an even modulus and parameters
    without 64-bit overflow. *)
Lemma round_trip_even (q d n N chi m : Z) (g1 g2 g3 g4 : G) :
  0 < q -> (2 | q) -> 0 <= n -> 0 <= N ->
  fits64 q n -> N * q <= int64_max ->
  m = 0 \/ m = 1 ->
  exists sk pk c,
    fst (secret_key_gen (q, d, n, N, chi) g1) = Ok sk
    /\ fst (public_key_gen (q, d, n, N, chi) sk g2) = Ok pk
    /\ fst (encrypt (q, d, n, N, chi) pk m g3) = Ok c
    /\ fst (decrypt (q, d, n, N, chi) sk c g4) = Ok m.
Proof.
  intros Hq H2 Hn HN Hf Hb Hm.
  pose proof (fits64_q q n Hq Hn Hf) as Hq63.
  destruct (secret_key_gen_spec q d n N chi g1 (conj Hq Hq63) Hn)
    as (s & g1' & Esk & Hs & Hsr).
  pose proof (drawn_A_length q n N g2) as HAl.
  pose proof (drawn_e_length q n N g2) as Hel.
  pose proof (drawn_A_rows q n N g2 Hq Hn HN) as HA.
  pose proof (drawn_e_range q n N g2 Hq) as He.
  set (pk := mkMatrix (1 + Z.to_nat n)
               (map2 (public_key_row q s) (drawn_A q n N g2)
                  (drawn_e q n N g2))).
  assert (Hrows : nrows pk = Z.to_nat N).
  { unfold nrows, pk; cbn [rows].
    rewrite map2_length, HAl, Hel; apply Nat.min_id. }
  assert (Hwf : wf_matrix pk).
  { unfold wf_matrix, pk; cbn [rows ncols].
    apply (Forall_map2 _ _ _ _ _ _ HA He).
    intros r ei [Hrl _] _. rewrite public_key_row_length; lia. }
  assert (Hrng : Forall (Forall (fun x => 0 <= x < q)) (rows pk)).
  { unfold pk; cbn [rows]. apply (Forall_map2 _ _ _ _ _ _ HA He).
    intros r ei _ _. apply public_key_row_range; assumption. }
  assert (HrowsZ : Z.of_nat (nrows pk) = N) by lia.
  assert (HcolsZ : Z.of_nat (ncols pk) = n + 1)
    by (unfold pk; cbn [ncols]; lia).
  exists (1 :: s), pk, (ciphertext_exact q n pk m (drawn_r N g3)).
  rewrite Esk, (public_key_gen_spec q d n N chi s g2) by assumption.
  rewrite (encrypt_spec q d n N chi pk m g3)
    by (try assumption; apply (fits64_int64 q n); assumption).
  rewrite (ciphertext_computed_exact q n N)
    by (try assumption; apply drawn_r_binary).
  rewrite (decrypt_spec q d n N chi s) ; try assumption.
  - repeat split. cbn [fst]. f_equal.
    rewrite (Z.mod_mod_divide _ q 2 H2).
    rewrite (ciphertext_parity q n pk m (drawn_r N g3) s H2 Hn Hwf
               eq_refl Hs
               ltac:(rewrite drawn_r_length; symmetry; exact Hrows)
               (public_key_rows_even q s _ _ H2)).
    destruct Hm as [-> | ->]; reflexivity.
  - rewrite ciphertext_exact_length; lia.
  - unfold ciphertext_exact. apply Forall_map, Forall_forall; intros j _.
    apply Z.mod_pos_bound; assumption.
Qed.

(** C1.  Under the fixed parameters q = 10, n = 10, N = 70 (any d and
    chi), for each message bit m and every generator state at each of
    the three drawing calls: [secret_key_gen] returns a secret key sk,
    [public_key_gen] returns a public key pk from it, [encrypt] returns
    a ciphertext of m under pk, and [decrypt] of that ciphertext under
    sk returns m. *)
Theorem round_trip (d chi m : Z) (g1 g2 g3 g4 : G) :
  m = 0 \/ m = 1 ->
  exists sk pk c,
    fst (secret_key_gen (10, d, 10, 70, chi) g1) = Ok sk
    /\ fst (public_key_gen (10, d, 10, 70, chi) sk g2) = Ok pk
    /\ fst (encrypt (10, d, 10, 70, chi) pk m g3) = Ok c
    /\ fst (decrypt (10, d, 10, 70, chi) sk c g4) = Ok m.
Proof.
  intros Hm.
  apply round_trip_even; try lia; try assumption.
  - exists 5; reflexivity.
  - unfold fits64, int64_max; lia.
  - unfold int64_max; lia.
Qed.

End Correctness.

(** * Concrete runs

    The runs below use the tape generator.  Every list of in-range
    samples is a draw of that generator, so a statement over all
    generators covers all values the random draws can take. *)

Lemma tape_replays (lo hi : Z) (v rest : list Z) :
  Forall (fun x => lo <= x < hi) v ->
  draw_ints (RS := tape_source) lo hi (length v)
    (map (fun x => x - lo) v ++ rest)
  = (v, rest).
Proof.
  induction 1 as [|x v Hx Hv IH]; simpl; [reflexivity|].
  rewrite IH, Z.mod_small by lia. f_equal; f_equal; lia.
Qed.

(** ** Instances of the theorems *)

Lemma round_trip_witness :
  (1 = 0 \/ 1 = 1)
  /\ exists sk pk c,
       fst (secret_key_gen toy counting_tape) = Ok sk
       /\ fst (public_key_gen toy sk counting_tape) = Ok pk
       /\ fst (encrypt toy pk 1 counting_tape) = Ok c
       /\ fst (decrypt toy sk c counting_tape) = Ok 1.
Proof.
  split; [right; reflexivity|].
  apply (round_trip 10 1 1 counting_tape counting_tape counting_tape
           counting_tape).
  right; reflexivity.
Defined.

Lemma setup_constant_witness :
  0 <= 1 < 2 ^ 31
  /\ fst (setup 1 1 1 counting_tape) = Ok (10, 10, 10, 70, 1).
Proof.
  split; [lia|]. apply setup_constant; lia.
Defined.

Lemma secret_key_gen_invariant_witness :
  0 < 10 <= 2 ^ 63 /\ 0 <= 10
  /\ exists sk,
       fst (secret_key_gen toy counting_tape) = Ok sk
       /\ Z.of_nat (length sk) = 10 + 1
       /\ nth 0 sk 0 = 1
       /\ Forall (fun x => 0 <= x < 10) (tl sk).
Proof.
  split; [lia|]. split; [lia|].
  apply (secret_key_gen_invariant 10 10 10 70 1 counting_tape); lia.
Defined.

Lemma toy_sk_range : Forall (fun x => 0 <= x < 10) (tl toy_sk).
Proof. unfold toy_sk; simpl; repeat constructor; lia. Qed.

Lemma toy_fits64 : fits64 10 10.
Proof. unfold fits64, int64_max; lia. Qed.

Lemma public_key_identity_witness :
  fits64 10 10
  /\ Z.of_nat (length toy_sk) = 10 + 1 /\ nth 0 toy_sk 0 = 1
  /\ Forall (fun x => 0 <= x < 10) (tl toy_sk)
  /\ exists pk,
    public_key_gen toy toy_sk counting_tape
    = (Ok pk, after_key_draws 10 10 70 counting_tape)
    /\ Z.of_nat (nrows pk) = 70
    /\ forall i, (i < nrows pk)%nat ->
         dotZ (nth i (rows pk) []) toy_sk mod 10
         = (2 * nth i (drawn_e 10 10 70 counting_tape) 0) mod 10.
Proof.
  split; [exact toy_fits64|]. split; [reflexivity|]. split; [reflexivity|].
  split; [exact toy_sk_range|].
  apply (public_key_identity 10 10 10 70 1 toy_sk counting_tape);
    try lia; try reflexivity.
  - exact toy_fits64.
  - exact toy_sk_range.
Defined.

Lemma public_key_structure_witness :
  fits64 10 10
  /\ Z.of_nat (length toy_sk) = 10 + 1 /\ nth 0 toy_sk 0 = 1
  /\ Forall (fun x => 0 <= x < 10) (tl toy_sk)
  /\ exists pk,
    fst (public_key_gen toy toy_sk counting_tape) = Ok pk
    /\ Z.of_nat (nrows pk) = 70
    /\ Z.of_nat (ncols pk) = 10 + 1
    /\ wf_matrix pk
    /\ Forall (Forall (fun x => 0 <= x < 10)) (rows pk)
    /\ forall i, (i < nrows pk)%nat ->
         nth i (rows pk) []
         = ((dotZ (nth i (drawn_A 10 10 70 counting_tape) []) (tl toy_sk)
             + 2 * nth i (drawn_e 10 10 70 counting_tape) 0) mod 10)
           :: map (fun x => (- x) mod 10)
                (nth i (drawn_A 10 10 70 counting_tape) []).
Proof.
  split; [exact toy_fits64|]. split; [reflexivity|]. split; [reflexivity|].
  split; [exact toy_sk_range|].
  apply (public_key_structure 10 10 10 70 1 toy_sk counting_tape);
    try lia; try reflexivity.
  - exact toy_fits64.
  - exact toy_sk_range.
Defined.

Lemma small_pk_wf : wf_matrix small_pk.
Proof. unfold wf_matrix, small_pk; simpl; repeat constructor. Qed.

Lemma small_pk_int64 : Forall (Forall int64) (rows small_pk).
Proof.
  unfold small_pk, int64, int64_min, int64_max; simpl.
  repeat constructor; lia.
Qed.

Lemma encrypt_ciphertext_witness :
  0 < 10 <= int64_max
  /\ wf_matrix small_pk /\ Forall (Forall int64) (rows small_pk)
  /\ Z.of_nat (nrows small_pk) = 3 /\ Z.of_nat (ncols small_pk) = 1 + 1
  /\ exists r c,
    randint 0 2 3 counting_tape = (Ok r, after_r 3 counting_tape)
    /\ Z.of_nat (length r) = 3
    /\ Forall (fun x => x = 0 \/ x = 1) r
    /\ encrypt (10, 10, 1, 3, 1) small_pk 1 counting_tape
       = (Ok c, after_r 3 counting_tape)
    /\ Z.of_nat (length c) = 1 + 1
    /\ Forall (fun x => 0 <= x < 10) c
    /\ c = ciphertext_computed 10 1 small_pk 1 r
    /\ (Forall (Forall (fun x => 0 <= x < 10)) (rows small_pk) ->
        3 * 10 <= int64_max ->
        c = ciphertext_exact 10 1 small_pk 1 r).
Proof.
  assert (Hq : 0 < 10 <= int64_max) by (unfold int64_max; lia).
  split; [exact Hq|].
  split; [exact small_pk_wf|]. split; [exact small_pk_int64|].
  split; [reflexivity|]. split; [reflexivity|].
  apply (encrypt_ciphertext 10 10 1 3 1 small_pk 1 counting_tape Hq
           (or_intror eq_refl) small_pk_wf small_pk_int64 eq_refl eq_refl).
Defined.

Lemma encrypt_message_check_witness :
  encrypt toy small_pk 2 counting_tape
  = (Err (AssertionError "Message must be either 0 or 1"), counting_tape)
  /\ forall msg,
       fst (encrypt toy small_pk 1 counting_tape) <> Err (AssertionError msg).
Proof.
  split.
  - apply (proj1 (encrypt_message_check toy small_pk 2 counting_tape)); lia.
  - apply (proj2 (encrypt_message_check toy small_pk 1 counting_tape)).
    right; reflexivity.
Defined.

Lemma toy_sk_int64 : Forall int64 toy_sk.
Proof.
  unfold toy_sk, int64, int64_min, int64_max; repeat constructor; lia.
Qed.

Lemma decrypt_dimension_witness :
  decrypt toy toy_sk [3; 4] counting_tape = (Err ValueError, counting_tape)
  /\ int64 10 /\ Forall int64 toy_sk
  /\ exists b, decrypt toy toy_sk toy_sk counting_tape = (Ok b, counting_tape).
Proof.
  assert (Hq : int64 10) by (unfold int64, int64_min, int64_max; lia).
  split.
  - apply (proj1 (decrypt_dimension 10 10 10 70 1 toy_sk [3; 4]
                    counting_tape));
      simpl; lia.
  - split; [exact Hq|]. split; [exact toy_sk_int64|].
    apply (proj2 (decrypt_dimension 10 10 10 70 1 toy_sk toy_sk
                    counting_tape) Hq toy_sk_int64 toy_sk_int64).
    left; reflexivity.
Defined.

Lemma wide_entries_int64 :
  Forall int64 [3; -5] /\ Forall int64 [-7; 2 ^ 62].
Proof.
  unfold int64, int64_min, int64_max; split; repeat constructor; lia.
Qed.

Lemma decrypt_bit_witness :
  0 < 10 <= int64_max
  /\ Forall int64 [3; -5] /\ Forall int64 [-7; 2 ^ 62]
  /\ length [-7; 2 ^ 62] = length [3; -5]
  /\ exists b,
       decrypt toy [3; -5] [-7; 2 ^ 62] counting_tape = (Ok b, counting_tape)
       /\ (b = 0 \/ b = 1).
Proof.
  assert (Hq : 0 < 10 <= int64_max) by (unfold int64_max; lia).
  split; [exact Hq|].
  split; [exact (proj1 wide_entries_int64)|].
  split; [exact (proj2 wide_entries_int64)|].
  split; [reflexivity|].
  apply (decrypt_bit 10 10 10 70 1 [3; -5] [-7; 2 ^ 62] counting_tape Hq
           (proj1 wide_entries_int64) (proj2 wide_entries_int64) eq_refl).
Defined.

(** ** Inputs on which the claims as first stated fail *)

(** C3 as stated fails at mod_size = -1: the initial draw raises. *)
Lemma setup_negative_mod_size :
  setup 1 (-1) 1 counting_tape = (Err ValueError, counting_tape).
Proof. reflexivity. Qed.

(** C5 as stated fails at q = 10, n = -1: the drawn array is empty and
    the assignment to element 0 raises. *)
Lemma secret_key_gen_negative_n :
  0 < 10 /\ fst (secret_key_gen (10, 10, -1, 70, 1) counting_tape)
            = Err IndexError.
Proof. split; [lia|reflexivity]. Qed.

(** C4 as stated fails on a key of length n + 1 that starts with 2, with
    A = 0 and e = 1 drawn: the assertion fires and no matrix is
    returned. *)
Lemma public_key_gen_leading_two :
  let sk := 2 :: repeat 0 10 in
  let tape := repeat 0 700 ++ repeat 1 70 in
  Z.of_nat (length sk) = 10 + 1
  /\ fst (public_key_gen toy sk tape)
     = Err (AssertionError "Public key generation failed").
Proof. vm_compute; split; reflexivity. Qed.

(** C2 as stated fails on a key with sk[0] = 1 and sk[1] = 2^62, with A
    all ones and e = 0 drawn: 9 * 2^62 wraps around in the check and the
    assertion fires. *)
Lemma public_key_gen_overflow :
  let sk := 1 :: 2 ^ 62 :: repeat 0 9 in
  let tape := repeat 1 700 ++ repeat 0 70 in
  nth 0 sk 0 = 1
  /\ Z.of_nat (length sk) = 10 + 1
  /\ drawn_A 10 10 70 tape = repeat (repeat 1 10) 70
  /\ drawn_e 10 10 70 tape = repeat 0 70
  /\ fst (public_key_gen toy sk tape)
     = Err (AssertionError "Public key generation failed").
Proof. vm_compute; repeat split; reflexivity. Qed.

(** The bound on (n + 1) q^2 cannot be dropped even for a secret key
    with entries in [0, q): at q = 4 * 10^9 and n = N = 1 the square of
    q - 1 wraps around and the assertion fires. *)
Lemma public_key_gen_large_modulus :
  fst (public_key_gen (4000000000, 10, 1, 1, 1) [1; 3999999999]
         [3999999999; 0])
  = Err (AssertionError "Public key generation failed").
Proof. vm_compute; reflexivity. Qed.

(** C6 as stated fails at q = -3: the ciphertext of 1 under the 1 x 1
    public key [[0]] is [-2], outside [0, q). *)
Lemma encrypt_negative_modulus :
  fst (encrypt (-3, 10, 0, 1, 1) (mkMatrix 1 [[0]]) 1 counting_tape)
  = Ok [-2]
  /\ ~ (0 <= -2 < -3).
Proof. split; [reflexivity|lia]. Qed.

(** The bound on N q cannot be dropped either: at q = 2^62 + 1 two
    rows with the entry 2^62 add up past 2^63 and the computed
    ciphertext differs from the exact one. *)
Lemma encrypt_overflow :
  let pk := mkMatrix 1 [[2 ^ 62]; [2 ^ 62]] in
  fst (encrypt (2 ^ 62 + 1, 10, 0, 2, 1) pk 0 [1; 1]) = Ok [2]
  /\ ciphertext_exact (2 ^ 62 + 1) 0 pk 0 [1; 1] = [2 ^ 62 - 1].
Proof. vm_compute; split; reflexivity. Qed.

(** C9 as stated fails at q = 2^63: the modulus does not fit the
    64-bit dtype and [%] raises OverflowError. *)
Lemma decrypt_modulus_overflow :
  0 < 2 ^ 63
  /\ length [1; 0] = length [1; 1]
  /\ decrypt (2 ^ 63, 10, 10, 70, 1) [1; 1] [1; 0] counting_tape
     = (Err OverflowError, counting_tape).
Proof. split; [lia|]. split; reflexivity. Qed.

(** C8 as stated fails on a ciphertext of length 1 against a key of
    length 11: the product broadcasts and a bit is returned. *)
Lemma decrypt_broadcasts :
  length [3] <> length toy_sk
  /\ decrypt toy toy_sk [3] counting_tape = (Ok 0, counting_tape).
Proof. split; [discriminate|reflexivity]. Qed.

(** * Further properties of the program *)

(** ** Parity through the 64-bit operations *)

Lemma wrap64_parity (z : Z) : wrap64 z mod 2 = z mod 2.
Proof.
  unfold wrap64.
  assert (H64 : (2 | 2 ^ 64)) by (exists (2 ^ 63); reflexivity).
  rewrite Zminus_mod, (Z.mod_mod_divide _ _ 2 H64), <- Zminus_mod.
  f_equal; ring.
Qed.

Lemma sumZ_wrapped_products_parity (u v : list Z) :
  sumZ (map2 (fun x y => wrap64 (x * y)) u v) mod 2 = dotZ u v mod 2.
Proof.
  revert v; induction u as [|x u IH]; intros [|y v]; simpl; auto.
  unfold sumZ in IH.
  rewrite Zplus_mod, wrap64_parity, IH, <- Zplus_mod; reflexivity.
Qed.

(** Inner products of entry-wise congruent left operands are
    congruent. *)
Lemma dotZ_congr (q : Z) (u u' v : list Z) :
  Forall2 (fun x y => x mod q = y mod q) u u' ->
  dotZ u v mod q = dotZ u' v mod q.
Proof.
  intros H; revert v; induction H as [|x y u u' Hxy Hu IH]; intros [|z v];
    simpl; auto.
  rewrite Zplus_mod, <- Zmult_mod_idemp_l, Hxy, Zmult_mod_idemp_l.
  rewrite (IH v), <- Zplus_mod; reflexivity.
Qed.

Lemma Forall2_map2_map {A B} (R : Z -> Z -> Prop) (f : A -> B -> Z)
    (h : B -> Z) (u : list A) (v : list B) :
  length u = length v ->
  (forall x y, R (f x y) (h y)) ->
  Forall2 R (map2 f u v) (map h v).
Proof.
  revert v; induction u as [|x u IH]; intros [|y v] Hl Hf; simpl in *;
    try discriminate; constructor; auto.
Qed.

Lemma bit_plus_even (m k : Z) : m = 0 \/ m = 1 -> (m + 2 * k) mod 2 = m.
Proof.
  intros Hm. replace (m + 2 * k) with (m + k * 2) by ring.
  rewrite Z.mod_add by lia. destruct Hm as [-> | ->]; reflexivity.
Qed.

Section Further.

Context {G : Type} {RS : RandomSource G}.

(** ** Key generation on an arbitrary secret key *)

Lemma bind_Ok_inv {A B} (m : M A) (f : A -> M B) (g g' : G) (b : B) :
  bind m f g = (Ok b, g') ->
  exists a g1, m g = (Ok a, g1) /\ f a g1 = (Ok b, g').
Proof.
  unfold bind. destruct (m g) as [[a|e] g1]; intros H; [eauto|discriminate].
Qed.

Lemma randint_Ok_inv (lo hi size : Z) (g g' : G) (v : list Z) :
  randint lo hi size g = (Ok v, g') ->
  size = 0 \/ (lo < hi /\ hi <= 2 ^ 63 /\ - 2 ^ 63 <= lo /\ 0 < size).
Proof.
  unfold randint.
  destruct (Z.eqb_spec size 0); [left; assumption|].
  destruct (Z.leb_spec hi lo); [discriminate|].
  destruct (Z.ltb_spec (2 ^ 63) hi); [discriminate|].
  destruct (Z.ltb_spec lo (- 2 ^ 63)); [discriminate|].
  destruct (Z.ltb_spec size 0); [discriminate|].
  intros _; right; lia.
Qed.

Lemma lift_Ok_inv {A} (r : result A) (g g' : G) (a : A) :
  lift r g = (Ok a, g') -> r = Ok a /\ g' = g.
Proof. unfold lift; intros H; inversion H; auto. Qed.

Lemma np_mod_mat_Ok_inv (m m' : matrix) (q : Z) :
  np_mod_mat m q = Ok m' -> int64 q.
Proof.
  unfold np_mod_mat. destruct (int64b q) eqn:E; [|discriminate].
  intros _; apply int64b_int64; exact E.
Qed.

Lemma reshape_Ok_inv (v : vector) (r c : Z) (m : matrix) :
  reshape v r c = Ok m ->
  0 <= r /\ 0 <= c /\ ncols m = Z.to_nat c.
Proof.
  unfold reshape.
  destruct (Z.ltb_spec r 0); [discriminate|].
  destruct (Z.ltb_spec c 0); [discriminate|].
  destruct (negb (r * c =? Z.of_nat (length v))); [discriminate|].
  simpl; intros Hm; inversion Hm; simpl; lia.
Qed.

Lemma np_all_map2_nth {A B} (f : A -> B -> bool) (u : list A) (v : list B)
    (i : nat) (da : A) (db : B) :
  np_all (map2 f u v) = true ->
  (i < length u)%nat -> (i < length v)%nat ->
  f (nth i u da) (nth i v db) = true.
Proof.
  revert v i; induction u as [|x u IH]; intros [|y v] [|i]; simpl;
    try lia; intros H Hu Hv; apply andb_prop in H; destruct H as [Hx Hr].
  - exact Hx.
  - apply IH; [exact Hr|lia|lia].
Qed.

Lemma computed_row_length (q : Z) (s r : list Z) (ei : Z) :
  length (computed_row q s r ei) = S (length r).
Proof.
  unfold computed_row; rewrite length_map, length_app, length_map.
  reflexivity.
Qed.

Lemma computed_row_range (q : Z) (s r : list Z) (ei : Z) :
  0 < q -> Forall (fun x => 0 <= x < q) (computed_row q s r ei).
Proof.
  intros Hq; unfold computed_row.
  apply Forall_map, Forall_forall; intros x _.
  apply floor_mod_range; assumption.
Qed.

(** X2.  What the assertion guarantees.  Whatever the parameters and
    the 64-bit secret key, a public key that [public_key_gen] returns
    has shape N x (n + 1) and all entries in [0, q), with q > 0 unless
    it has no rows; the secret key has length n + 1, and every row
    passes the check of the assertion in the 64-bit arithmetic of the
    code: (pk[i] . sk) % q = (2 e[i]) % q for the noise e of that
    call. *)
Theorem public_key_gen_returned (q d n N chi : Z) (sk : vector)
    (g g' : G) (pk : matrix) :
  Forall int64 sk ->
  public_key_gen (q, d, n, N, chi) sk g = (Ok pk, g') ->
  Z.of_nat (length sk) = n + 1
  /\ Z.of_nat (nrows pk) = N
  /\ Z.of_nat (ncols pk) = n + 1
  /\ wf_matrix pk
  /\ (0 < N -> 0 < q)
  /\ Forall (Forall (fun x => 0 <= x < q)) (rows pk)
  /\ g' = after_key_draws q n N g
  /\ forall i, (i < nrows pk)%nat ->
       wrap64 (dotZ (nth i (rows pk) []) sk) mod q
       = wrap64 (2 * nth i (drawn_e q n N g) 0) mod q.
Proof.
  intros _ H. pose proof H as H0.
  unfold public_key_gen in H0.
  apply bind_Ok_inv in H0; destruct H0 as (a & g1 & _ & H0).
  apply bind_Ok_inv in H0; destruct H0 as (A & g2 & HA & H0).
  apply lift_Ok_inv in HA; destruct HA as [HA _].
  apply reshape_Ok_inv in HA; destruct HA as (HN & Hn & HAc).
  apply bind_Ok_inv in H0; destruct H0 as (e & g3 & He & H0).
  apply randint_Ok_inv in He.
  assert (Hq : N = 0 \/ 0 < q <= 2 ^ 63) by (destruct He; [left|right]; lia).
  clear He.
  apply bind_Ok_inv in H0; destruct H0 as (As & g4 & HAs & H0).
  apply lift_Ok_inv in HAs; destruct HAs as [HAs _].
  unfold np_dot in HAs. rewrite HAc in HAs.
  destruct (Nat.eqb_spec (Z.to_nat n) (length (tl sk))) as [Hs|];
    [|discriminate]. clear HAs.
  apply bind_Ok_inv in H0; destruct H0 as (b & g5 & _ & H0).
  apply bind_Ok_inv in H0; destruct H0 as (b' & g6 & _ & H0).
  apply bind_Ok_inv in H0; destruct H0 as (st & g7 & _ & H0).
  apply bind_Ok_inv in H0; destruct H0 as (pk' & g8 & Hpk & _).
  apply lift_Ok_inv in Hpk; destruct Hpk as [Hpk _].
  apply np_mod_mat_Ok_inv in Hpk.
  rewrite (public_key_gen_unfold q d n N chi sk g) in H by (auto; lia).
  destruct (Nat.eqb_spec (1 + Z.to_nat n) (length sk)) as [Hl|];
    [|discriminate].
  match type of H with context [np_all ?l] =>
    destruct (np_all l) eqn:Hall end; [|discriminate].
  inversion H; subst pk g'; clear H.
  pose proof (drawn_A_length q n N g) as HAl.
  pose proof (drawn_e_length q n N g) as Hel.
  unfold nrows, wf_matrix; cbn [rows ncols].
  rewrite map2_length, HAl, Hel, Nat.min_id.
  split; [lia|]. split; [lia|]. split; [lia|].
  destruct (Z.eq_dec N 0) as [HN0|HN0].
  - assert (E : drawn_A q n N g = []).
    { destruct (drawn_A q n N g); [reflexivity|]. simpl in HAl; lia. }
    rewrite E. cbn [map2].
    repeat split; try constructor; try lia.
  - assert (Hq0 : 0 < q) by lia.
    pose proof (drawn_A_rows q n N g Hq0 Hn HN) as HAr.
    pose proof (drawn_e_range q n N g Hq0) as Her.
    split; [|split; [intros _; exact Hq0|split; [|split; [reflexivity|]]]].
    + apply (Forall_map2 _ _ _ _ _ _ HAr Her).
      intros r ei [Hrl _] _. rewrite computed_row_length; lia.
    + apply (Forall_map2 _ _ _ _ _ _ HAr Her).
      intros r ei _ _. apply computed_row_range; assumption.
    + intros i Hi. rewrite (nth_map2 _ _ _ i [] 0 []) by lia.
      rewrite <- !floor_mod_pos by assumption.
      apply Z.eqb_eq.
      apply (np_all_map2_nth _ _ _ i [] 0 Hall); lia.
Qed.

(** X3.  A secret key of the wrong length.  For a modulus 0 < q < 2^63,
    n >= 0, N >= 0 and a secret key whose length is not n + 1,
    [public_key_gen] raises ValueError, after both draws: one of the
    two matrix-vector products rejects the shapes. *)
Theorem public_key_gen_wrong_length (q d n N chi : Z) (sk : vector) (g : G) :
  0 < q <= int64_max -> 0 <= n -> 0 <= N ->
  Z.of_nat (length sk) <> n + 1 ->
  public_key_gen (q, d, n, N, chi) sk g
  = (Err ValueError, after_key_draws q n N g).
Proof.
  intros Hq Hn HN Hl.
  assert (Hq63 : 0 < q <= 2 ^ 63) by (unfold int64_max in Hq; lia).
  destruct (Nat.eq_dec (length (tl sk)) (Z.to_nat n)) as [Hs|Hs].
  - rewrite (public_key_gen_unfold q d n N chi sk g)
      by (auto; apply int64_pos; lia).
    destruct (Nat.eqb_spec (1 + Z.to_nat n) (length sk)); [lia|reflexivity].
  - unfold public_key_gen, bind, lift.
    rewrite randint_ok by nia.
    unfold reshape. rewrite draw_ints_length.
    destruct (Z.ltb_spec N 0); [lia|].
    destruct (Z.ltb_spec n 0); [lia|].
    rewrite Z2Nat.id, Z.eqb_refl by nia. cbn [orb negb].
    rewrite randint_ok by lia.
    unfold np_dot; cbn [ncols].
    destruct (Nat.eqb_spec (Z.to_nat n) (length (tl sk))); [congruence|].
    reflexivity.
Qed.

(** ** Secret keys: the error cases *)

(** X4.  With n = -1 the draw has size 0 and is empty whatever q is,
    so the assignment to element 0 raises IndexError.  With any other
    n, [secret_key_gen] raises ValueError when q is not positive, when
    q exceeds 2^63 or when n < -1.  No sample is drawn in either
    case. *)
Theorem secret_key_gen_errors (q d n N chi : Z) (g : G) :
  (n = -1 -> secret_key_gen (q, d, n, N, chi) g = (Err IndexError, g))
  /\ (n <> -1 -> q <= 0 \/ 2 ^ 63 < q \/ n < -1 ->
      secret_key_gen (q, d, n, N, chi) g = (Err ValueError, g)).
Proof.
  unfold secret_key_gen, bind, randint; split.
  - intros ->. reflexivity.
  - intros Hn H.
    destruct (Z.eqb_spec (n + 1) 0); [lia|].
    destruct (Z.leb_spec q 0); [reflexivity|].
    destruct (Z.ltb_spec (2 ^ 63) q); [reflexivity|].
    destruct (Z.ltb_spec (n + 1) 0); [reflexivity|lia].
Qed.

(** ** Encryption: shapes that do not fit *)

(** X5.  [encrypt] on a message bit.  A negative N raises ValueError
    before any draw.  With N >= 0, a public key that does not have N
    rows raises ValueError after r is drawn, and so does one with N
    rows whose column count is neither 1 nor n + 1 when n > 0.  A
    64-bit public key of N rows and a single column is not rejected
    when q fits in 64 bits: the one product is broadcast over the
    message vector and the result has n + 1 entries. *)
Theorem encrypt_shape_errors (q d n N chi : Z) (pk : matrix) (m : Z) (g : G) :
  m = 0 \/ m = 1 ->
  (N < 0 -> encrypt (q, d, n, N, chi) pk m g = (Err ValueError, g))
  /\ (0 <= N -> Z.of_nat (nrows pk) <> N ->
      encrypt (q, d, n, N, chi) pk m g = (Err ValueError, after_r N g))
  /\ (0 <= N -> Z.of_nat (nrows pk) = N -> 0 < n ->
      ncols pk <> 1%nat -> Z.of_nat (ncols pk) <> n + 1 ->
      encrypt (q, d, n, N, chi) pk m g = (Err ValueError, after_r N g))
  /\ (int64 q -> Forall (Forall int64) (rows pk) ->
      0 <= N -> Z.of_nat (nrows pk) = N -> 0 < n ->
      ncols pk = 1%nat ->
      exists c,
        encrypt (q, d, n, N, chi) pk m g = (Ok c, after_r N g)
        /\ Z.of_nat (length c) = n + 1).
Proof.
  intros Hm; unfold encrypt.
  replace (negb ((m =? 0) || (m =? 1))) with false
    by (destruct Hm; subst; reflexivity).
  unfold bind, lift. split; [|split; [|split]].
  - intros HN. unfold randint.
    destruct (Z.eqb_spec N 0); [lia|].
    destruct (Z.ltb_spec N 0); [reflexivity|lia].
  - intros HN Hr. rewrite randint_ok by lia.
    fold (drawn_r N g); fold (after_r N g).
    unfold np_dot, transpose; cbn [ncols]. rewrite drawn_r_length.
    destruct (Nat.eqb_spec (nrows pk) (Z.to_nat N)); [lia|reflexivity].
  - intros HN Hr Hn Hc1 Hc. rewrite randint_ok by lia.
    fold (drawn_r N g); fold (after_r N g).
    unfold np_dot, transpose; cbn [ncols rows]. rewrite drawn_r_length.
    destruct (Nat.eqb_spec (nrows pk) (Z.to_nat N)); [|lia].
    unfold np_add, broadcast2.
    cbn [length]. rewrite repeat_length, !length_map, length_seq.
    destruct (Nat.eqb_spec (S (Z.to_nat n)) (ncols pk)); [lia|].
    destruct (Z.to_nat n) as [|k] eqn:Ek; [lia|].
    destruct (ncols pk) as [|[|c]]; [reflexivity|contradiction|].
    reflexivity.
  - intros Hq _ HN Hr Hn Hc1. rewrite randint_ok by lia.
    fold (drawn_r N g); fold (after_r N g).
    unfold np_dot, transpose; cbn [ncols rows]. rewrite drawn_r_length.
    destruct (Nat.eqb_spec (nrows pk) (Z.to_nat N)); [|lia].
    rewrite Hc1. cbn [seq map].
    unfold np_add, broadcast2.
    cbn [length]. rewrite repeat_length.
    destruct (Z.to_nat n) as [|k] eqn:Ek; [lia|].
    cbn [Nat.eqb repeat].
    rewrite np_mod_vec_ok by assumption.
    eexists; split; [reflexivity|].
    rewrite !length_map. cbn [length].
    rewrite repeat_length. lia.
Qed.

(** X6.  The message reaches entry 0 of the ciphertext only: for a
    modulus that fits in 64 bits and from the same generator state, the
    encryptions of 0 and of 1 under a 64-bit public key of shape
    N x (n + 1) agree on every entry after the first. *)
Theorem ciphertext_tail_message_free (q d n N chi : Z) (pk : matrix) (g : G) :
  int64 q -> Forall (Forall int64) (rows pk) ->
  Z.of_nat (nrows pk) = N -> Z.of_nat (ncols pk) = n + 1 ->
  exists c0 c1 g',
    encrypt (q, d, n, N, chi) pk 0 g = (Ok c0, g')
    /\ encrypt (q, d, n, N, chi) pk 1 g = (Ok c1, g')
    /\ tl c0 = tl c1.
Proof.
  intros Hq _ HN Hc.
  exists (ciphertext_computed q n pk 0 (drawn_r N g)),
         (ciphertext_computed q n pk 1 (drawn_r N g)), (after_r N g).
  rewrite !encrypt_spec by (auto; lia). repeat split.
  unfold ciphertext_computed.
  destruct (Z.to_nat (n + 1)) as [|k]; [reflexivity|].
  cbn [seq map tl]. apply map_ext_in.
  intros j Hj. apply in_seq in Hj.
  destruct j as [|j]; [lia|reflexivity].
Qed.

(** ** Decryption under an even modulus *)

(** X7.  For an even modulus 0 < q < 2^63 and two 64-bit vectors of
    equal length, whatever their entries, [decrypt] returns the parity
    of their exact inner product: neither the reduction modulo q nor
    the 64-bit wrap-around changes it. *)
Theorem decrypt_even_modulus (q d n N chi : Z) (sk ciphertext : vector) (g : G) :
  0 < q <= int64_max -> (2 | q) ->
  Forall int64 sk -> Forall int64 ciphertext ->
  length ciphertext = length sk ->
  decrypt (q, d, n, N, chi) sk ciphertext g
  = (Ok (dotZ ciphertext sk mod 2), g).
Proof.
  intros Hq H2 _ _ Hl.
  unfold decrypt, bind, lift, np_multiply, broadcast2.
  rewrite Hl, Nat.eqb_refl.
  rewrite (np_mod_ok _ q) by (apply int64_pos; lia).
  rewrite (np_mod_ok _ 2) by (unfold int64, int64_min, int64_max; lia).
  do 2 f_equal.
  rewrite !floor_mod_pos by lia.
  rewrite (Z.mod_mod_divide _ q 2 H2).
  unfold np_sum. rewrite wrap64_parity.
  apply sumZ_wrapped_products_parity.
Qed.

(** ** Decryption of an encryption, for any modulus *)

(** The inner product of the exact ciphertext with the secret key,
    modulo q: the message plus the combination of the rows' inner
    products. *)
Lemma ciphertext_inner_product (q n : Z) (pk : matrix) (m : Z) (r s : vector) :
  0 <= n ->
  wf_matrix pk -> ncols pk = S (Z.to_nat n) ->
  length s = Z.to_nat n ->
  length r = nrows pk ->
  dotZ (ciphertext_exact q n pk m r) (1 :: s) mod q
  = (m + dotZ (map (fun row => dotZ row (1 :: s)) (rows pk)) r) mod q.
Proof.
  intros Hn Hwf Hc Hs Hr. unfold ciphertext_exact.
  rewrite (dotZ_mod_l q
    (fun j => message_entry m j + dotZ (column pk j) r)).
  rewrite (dotZ_map_add (message_entry m) (fun j => dotZ (column pk j) r)).
  replace (Z.to_nat (n + 1)) with (S (Z.to_nat n)) by lia.
  unfold column. rewrite <- Hc at 2.
  rewrite (dotZ_transpose (ncols pk) (rows pk) r (1 :: s) Hwf Hr).
  cbn [seq map dotZ]. rewrite <- seq_shift, map_map.
  rewrite (map_ext (fun j => message_entry m (S j)) (fun _ => 0))
    by reflexivity.
  rewrite map_zero_seq, dotZ_repeat0_l. unfold message_entry; simpl.
  f_equal; ring.
Qed.

(** Key generation on [1 :: s], encryption and decryption in sequence,
    without 64-bit overflow: what [decrypt] returns, in terms of the
    noise e and the binary vector r of the two calls. *)
Lemma decrypt_encrypt_spec (q d n N chi m : Z) (s : vector) (g2 g3 g4 : G) :
  0 < q -> 0 <= n -> 0 <= N ->
  fits64 q n -> N * q <= int64_max ->
  length s = Z.to_nat n -> Forall (fun x => 0 <= x < q) s ->
  m = 0 \/ m = 1 ->
  exists pk c,
    public_key_gen (q, d, n, N, chi) (1 :: s) g2
    = (Ok pk, after_key_draws q n N g2)
    /\ Z.of_nat (nrows pk) = N
    /\ Z.of_nat (ncols pk) = n + 1
    /\ wf_matrix pk
    /\ Forall (Forall (fun x => 0 <= x < q)) (rows pk)
    /\ encrypt (q, d, n, N, chi) pk m g3 = (Ok c, after_r N g3)
    /\ Z.of_nat (length c) = n + 1
    /\ Forall (fun x => 0 <= x < q) c
    /\ decrypt (q, d, n, N, chi) (1 :: s) c g4
       = (Ok (((m + 2 * dotZ (drawn_e q n N g2) (drawn_r N g3)) mod q)
              mod 2), g4).
Proof.
  intros Hq Hn HN Hf Hb Hs Hsr Hm.
  pose proof (drawn_A_length q n N g2) as HAl.
  pose proof (drawn_e_length q n N g2) as Hel.
  pose proof (drawn_A_rows q n N g2 Hq Hn HN) as HA.
  pose proof (drawn_e_range q n N g2 Hq) as He.
  set (pk := mkMatrix (1 + Z.to_nat n)
               (map2 (public_key_row q s) (drawn_A q n N g2)
                  (drawn_e q n N g2))).
  assert (Hrows : nrows pk = Z.to_nat N).
  { unfold nrows, pk; cbn [rows].
    rewrite map2_length, HAl, Hel; apply Nat.min_id. }
  assert (Hwf : wf_matrix pk).
  { unfold wf_matrix, pk; cbn [rows ncols].
    apply (Forall_map2 _ _ _ _ _ _ HA He).
    intros r ei [Hrl _] _. rewrite public_key_row_length; lia. }
  assert (Hrng : Forall (Forall (fun x => 0 <= x < q)) (rows pk)).
  { unfold pk; cbn [rows]. apply (Forall_map2 _ _ _ _ _ _ HA He).
    intros r ei _ _. apply public_key_row_range; assumption. }
  assert (HrowsZ : Z.of_nat (nrows pk) = N) by lia.
  assert (HcolsZ : Z.of_nat (ncols pk) = n + 1)
    by (unfold pk; cbn [ncols]; lia).
  exists pk, (ciphertext_exact q n pk m (drawn_r N g3)).
  assert (Hcr : Forall (fun x => 0 <= x < q)
                  (ciphertext_exact q n pk m (drawn_r N g3))).
  { unfold ciphertext_exact. apply Forall_map, Forall_forall; intros j _.
    apply Z.mod_pos_bound; assumption. }
  split; [apply public_key_gen_spec; assumption|].
  do 4 (split; [assumption|]).
  split.
  { rewrite (encrypt_spec q d n N chi pk m g3)
      by (try assumption; apply (fits64_int64 q n); assumption).
    rewrite (ciphertext_computed_exact q n N)
      by (try assumption; apply drawn_r_binary).
    reflexivity. }
  split; [rewrite ciphertext_exact_length; lia|].
  split; [assumption|].
  rewrite (decrypt_spec q d n N chi s); try assumption.
  - do 3 f_equal.
    rewrite (ciphertext_inner_product q n pk m (drawn_r N g3) s Hn Hwf
               eq_refl Hs
               ltac:(rewrite drawn_r_length; symmetry; exact Hrows)).
    rewrite Zplus_mod. rewrite (Zplus_mod m (2 * _)). do 2 f_equal.
    unfold pk; cbn [rows]. rewrite map_map2.
    rewrite (dotZ_congr q _ (map (fun ei => ei * 2) (drawn_e q n N g2))).
    + rewrite (dotZ_map_scale 2 (fun x => x)), map_id. reflexivity.
    + apply Forall2_map2_map; [lia|].
      intros r ei. rewrite public_key_row_identity. f_equal; ring.
  - rewrite ciphertext_exact_length; lia.
Qed.

(** X8.  What decryption returns.  Without 64-bit overflow, for any modulus
    q > 0 and a secret key [1 :: s] with s in [0, q): the decryption of
    an encryption of m is ((m + 2 (e . r)) mod q) mod 2, where e is
    the noise drawn by [public_key_gen] and r the binary vector drawn
    by [encrypt]. *)
Theorem decrypt_encrypt_noise (q d n N chi m : Z) (s : vector) (g2 g3 g4 : G) :
  0 < q -> 0 <= n -> 0 <= N ->
  fits64 q n -> N * q <= int64_max ->
  length s = Z.to_nat n -> Forall (fun x => 0 <= x < q) s ->
  m = 0 \/ m = 1 ->
  exists pk c,
    fst (public_key_gen (q, d, n, N, chi) (1 :: s) g2) = Ok pk
    /\ fst (encrypt (q, d, n, N, chi) pk m g3) = Ok c
    /\ fst (decrypt (q, d, n, N, chi) (1 :: s) c g4)
       = Ok (((m + 2 * dotZ (drawn_e q n N g2) (drawn_r N g3)) mod q)
             mod 2).
Proof.
  intros Hq Hn HN Hf Hb Hs Hsr Hm.
  destruct (decrypt_encrypt_spec q d n N chi m s g2 g3 g4
              Hq Hn HN Hf Hb Hs Hsr Hm)
    as (pk & c & Epk & _ & _ & _ & _ & Eenc & _ & _ & Edec).
  exists pk, c. rewrite Epk, Eenc, Edec. auto.
Qed.

Lemma noise_nonneg (q n N : Z) (g2 g3 : G) :
  0 < q -> 0 <= dotZ (drawn_e q n N g2) (drawn_r N g3).
Proof.
  intros Hq.
  pose proof (Forall_range_le _ _ (drawn_e_range q n N g2 Hq)) as He.
  assert (Hr : Forall (fun y => 0 <= y <= 1) (drawn_r N g3)).
  { pose proof (drawn_r_binary N g3) as H.
    revert H; apply Forall_impl; intros; lia. }
  pose proof (dotZ_bounds (q - 1) 1 _ _ ltac:(lia) ltac:(lia) He Hr).
  lia.
Qed.

(** X9.  Small noise decrypts correctly, for odd moduli too: under the same
    hypotheses, when m + 2 (e . r) stays below q the decryption of the
    encryption of m is m. *)
Theorem round_trip_small_noise (q d n N chi m : Z) (s : vector)
    (g2 g3 g4 : G) :
  0 < q -> 0 <= n -> 0 <= N ->
  fits64 q n -> N * q <= int64_max ->
  length s = Z.to_nat n -> Forall (fun x => 0 <= x < q) s ->
  m = 0 \/ m = 1 ->
  m + 2 * dotZ (drawn_e q n N g2) (drawn_r N g3) < q ->
  exists pk c,
    fst (public_key_gen (q, d, n, N, chi) (1 :: s) g2) = Ok pk
    /\ fst (encrypt (q, d, n, N, chi) pk m g3) = Ok c
    /\ fst (decrypt (q, d, n, N, chi) (1 :: s) c g4) = Ok m.
Proof.
  intros Hq Hn HN Hf Hb Hs Hsr Hm Hsmall.
  destruct (decrypt_encrypt_spec q d n N chi m s g2 g3 g4
              Hq Hn HN Hf Hb Hs Hsr Hm)
    as (pk & c & Epk & _ & _ & _ & _ & Eenc & _ & _ & Edec).
  exists pk, c. rewrite Epk, Eenc, Edec. repeat split. cbn [fst]. f_equal.
  pose proof (noise_nonneg q n N g2 g3 Hq) as H0.
  rewrite (Z.mod_small _ q) by lia.
  apply bit_plus_even; assumption.
Qed.

(** X10.  Every even modulus decrypts correctly, whatever the noise: for an
    even q > 0 and parameters without 64-bit overflow, the chain of
    [secret_key_gen], [public_key_gen], [encrypt] and [decrypt], each
    from a generator state of its own, returns the message bit. *)
Theorem round_trip_even_modulus (q d n N chi m : Z) (g1 g2 g3 g4 : G) :
  0 < q -> (2 | q) -> 0 <= n -> 0 <= N ->
  fits64 q n -> N * q <= int64_max ->
  m = 0 \/ m = 1 ->
  exists sk pk c,
    fst (secret_key_gen (q, d, n, N, chi) g1) = Ok sk
    /\ fst (public_key_gen (q, d, n, N, chi) sk g2) = Ok pk
    /\ fst (encrypt (q, d, n, N, chi) pk m g3) = Ok c
    /\ fst (decrypt (q, d, n, N, chi) sk c g4) = Ok m.
Proof.
  intros Hq H2 Hn HN Hf Hb Hm.
  pose proof (fits64_q q n Hq Hn Hf) as Hq63.
  destruct (secret_key_gen_spec q d n N chi g1 (conj Hq Hq63) Hn)
    as (s & g1' & Esk & Hs & Hsr).
  destruct (decrypt_encrypt_spec q d n N chi m s g2 g3 g4
              Hq Hn HN Hf Hb Hs Hsr Hm)
    as (pk & c & Epk & _ & _ & _ & _ & Eenc & _ & _ & Edec).
  exists (1 :: s), pk, c. rewrite Esk, Epk, Eenc, Edec.
  repeat split. cbn [fst]. f_equal.
  rewrite (Z.mod_mod_divide _ q 2 H2).
  apply bit_plus_even; assumption.
Qed.

(** ** The driver *)

Lemma setup_run (bit_length mod_size base_value : Z) (g : G) :
  0 <= mod_size < 2 ^ 31 ->
  setup bit_length mod_size base_value g
  = (Ok (10, 10, 10, 70, 1), snd (draw_bits mod_size g)).
Proof.
  intros H; unfold setup, bind.
  rewrite getrandbits_ok by assumption. reflexivity.
Qed.

Lemma getitem_ok (pk : matrix) (i : nat) :
  (i < nrows pk)%nat -> getitem pk i = Ok (nth i (rows pk) []).
Proof.
  intros Hi; unfold getitem.
  rewrite (nth_error_nth' (rows pk) [] Hi). reflexivity.
Qed.

(** X1.  The driver runs to its end from every generator state and
    prints what its calls return.  With sk the result of
    [secret_key_gen] after the draw of [setup], pk the result of
    [public_key_gen] on sk, c the result of [encrypt] of 0 under pk,
    each from the generator state the previous call left: [decrypt] of
    c under sk is 0, and the driver raises nothing and appends six
    items to the output, in this order and with these labels: the
    message bit 0, rows 0 and 1 of pk, sk, c, and the decrypted bit
    0. *)
Theorem main_output (out : list printed) (g : G) :
  exists sk pk c g0 g1 g2 g3,
    setup 1 1 1 g = (Ok (10, 10, 10, 70, 1), g0)
    /\ secret_key_gen (10, 10, 10, 70, 1) g0 = (Ok sk, g1)
    /\ public_key_gen (10, 10, 10, 70, 1) sk g1 = (Ok pk, g2)
    /\ encrypt (10, 10, 10, 70, 1) pk 0 g2 = (Ok c, g3)
    /\ decrypt (10, 10, 10, 70, 1) sk c g3 = (Ok 0, g3)
    /\ nrows pk = 70%nat
    /\ main out g
       = (Ok tt, g3,
          out ++ [PInt ("Message bit:" ++ tab) 0;
                  PVec ("Public key [0]:" ++ tab) (nth 0 (rows pk) []);
                  PVec ("Public key [1]:" ++ tab) (nth 1 (rows pk) []);
                  PVec ("Secret key:" ++ tab) sk;
                  PVec ("Ciphertext:" ++ tab) c;
                  PInt ("Decrypted bit:" ++ tab) 0]).
Proof.
  destruct (secret_key_gen_spec 10 10 10 70 1 (snd (draw_bits 1 g))
              ltac:(lia) ltac:(lia))
    as (s & g1 & Esk & Hs & Hsr).
  destruct (decrypt_encrypt_spec 10 10 10 70 1 0 s g1
              (after_key_draws 10 10 70 g1)
              (after_r 70 (after_key_draws 10 10 70 g1))
              ltac:(lia) ltac:(lia) ltac:(lia)
              ltac:(unfold fits64, int64_max; lia)
              ltac:(unfold int64_max; lia) Hs Hsr ltac:(lia))
    as (pk & c & Epk & Hrows & Hcols & Hwf & Hrng & Eenc & Hcl & Hcr & Edec).
  assert (E0 : ((0 + 2 * dotZ (drawn_e 10 10 70 g1)
                       (drawn_r 70 (after_key_draws 10 10 70 g1))) mod 10)
               mod 2 = 0).
  { rewrite (Z.mod_mod_divide _ 10 2) by (exists 5; reflexivity).
    apply bit_plus_even; left; reflexivity. }
  rewrite E0 in Edec.
  exists (1 :: s), pk, c, (snd (draw_bits 1 g)), g1,
         (after_key_draws 10 10 70 g1),
         (after_r 70 (after_key_draws 10 10 70 g1)).
  split; [apply setup_run; lia|].
  do 4 (split; [assumption|]).
  split; [lia|].
  unfold main, bindD, run.
  rewrite setup_run by lia. rewrite Esk, Epk, Eenc. unfold print, lift.
  rewrite !getitem_ok by lia. rewrite Edec.
  rewrite <- !app_assoc. reflexivity.
Qed.

(** ** Setup: the initial draw *)

(** X11.  The initial draw of [setup] decides whether it returns.  A
    [mod_size] below -2^31 does not fit a C int and raises
    OverflowError; one in [-2^31, 0) raises ValueError; in both cases
    whatever the other two arguments, with the generator state left as
    it was.  For a [mod_size] in [-2^31, 2^31), [setup] returns its
    tuple exactly when [mod_size] is not negative. *)
Theorem setup_mod_size (bit_length mod_size base_value : Z) (g : G) :
  (mod_size < - 2 ^ 31 ->
   setup bit_length mod_size base_value g = (Err OverflowError, g))
  /\ (- 2 ^ 31 <= mod_size < 0 ->
      setup bit_length mod_size base_value g = (Err ValueError, g))
  /\ (- 2 ^ 31 <= mod_size < 2 ^ 31 ->
      (fst (setup bit_length mod_size base_value g)
       = Ok (10, 10, 10, 70, 1)
       <-> 0 <= mod_size)).
Proof.
  assert (Hneg : - 2 ^ 31 <= mod_size < 0 ->
                 setup bit_length mod_size base_value g
                 = (Err ValueError, g)).
  { intros Hn. unfold setup, bind, getrandbits.
    destruct (Z.ltb_spec mod_size (- 2 ^ 31)); [lia|].
    destruct (Z.leb_spec (2 ^ 31) mod_size); [lia|].
    destruct (Z.ltb_spec mod_size 0); [reflexivity|lia]. }
  split; [|split; [exact Hneg|]].
  - intros Hn. unfold setup, bind, getrandbits.
    destruct (Z.ltb_spec mod_size (- 2 ^ 31)); [reflexivity|lia].
  - intros Hr; split.
    + intros H. destruct (Z.lt_ge_cases mod_size 0) as [Hn|Hn]; [|exact Hn].
      rewrite (Hneg ltac:(lia)) in H. discriminate.
    + intros H. rewrite setup_run by lia. reflexivity.
Qed.

End Further.

(** ** Instances of the further properties *)

Lemma tiny_sk_int64 : Forall int64 [1; 4; 5].
Proof.
  unfold int64, int64_min, int64_max; repeat constructor; lia.
Qed.

Lemma public_key_gen_returned_witness :
  Forall int64 [1; 4; 5]
  /\ public_key_gen (10, 10, 2, 3, 1) [1; 4; 5] [1; 2; 3; 4; 5; 6; 7; 8; 9]
     = (Ok (mkMatrix 3 [[8; 9; 8]; [8; 7; 6]; [8; 5; 4]]), [])
  /\ Z.of_nat (length [1; 4; 5]) = 2 + 1
  /\ wf_matrix (mkMatrix 3 [[8; 9; 8]; [8; 7; 6]; [8; 5; 4]]).
Proof.
  assert (E : public_key_gen (10, 10, 2, 3, 1) [1; 4; 5]
                [1; 2; 3; 4; 5; 6; 7; 8; 9]
              = (Ok (mkMatrix 3 [[8; 9; 8]; [8; 7; 6]; [8; 5; 4]]), []))
    by reflexivity.
  split; [exact tiny_sk_int64|]. split; [exact E|].
  pose proof (public_key_gen_returned 10 10 2 3 1 [1; 4; 5]
                [1; 2; 3; 4; 5; 6; 7; 8; 9] []
                (mkMatrix 3 [[8; 9; 8]; [8; 7; 6]; [8; 5; 4]])
                tiny_sk_int64 E)
    as (Hl & _ & _ & Hwf & _).
  split; assumption.
Defined.

Lemma public_key_gen_wrong_length_witness :
  0 < 10 <= int64_max
  /\ Z.of_nat (length [1; 4]) <> 2 + 1
  /\ public_key_gen (10, 10, 2, 3, 1) [1; 4] counting_tape
     = (Err ValueError, after_key_draws 10 2 3 counting_tape).
Proof.
  assert (Hq : 0 < 10 <= int64_max) by (unfold int64_max; lia).
  split; [exact Hq|]. split; [simpl; lia|].
  apply (public_key_gen_wrong_length 10 10 2 3 1 [1; 4] counting_tape Hq);
    simpl; lia.
Defined.

Lemma secret_key_gen_errors_witness :
  secret_key_gen (0, 10, -1, 70, 1) counting_tape
  = (Err IndexError, counting_tape)
  /\ secret_key_gen (0, 10, 10, 70, 1) counting_tape
     = (Err ValueError, counting_tape).
Proof.
  split.
  - apply (proj1 (secret_key_gen_errors 0 10 (-1) 70 1 counting_tape)).
    reflexivity.
  - apply (proj2 (secret_key_gen_errors 0 10 10 70 1 counting_tape)); lia.
Defined.

Lemma one_column_int64 : Forall (Forall int64) (rows (mkMatrix 1 [[7]; [8]])).
Proof.
  unfold int64, int64_min, int64_max; simpl; repeat constructor; lia.
Qed.

Lemma encrypt_shape_errors_witness :
  (1 = 0 \/ 1 = 1)
  /\ encrypt (10, 10, 1, 2, 1) small_pk 1 counting_tape
     = (Err ValueError, after_r 2 counting_tape)
  /\ int64 10
  /\ exists c,
       encrypt (10, 10, 4, 2, 1) (mkMatrix 1 [[7]; [8]]) 1 counting_tape
       = (Ok c, after_r 2 counting_tape)
       /\ Z.of_nat (length c) = 4 + 1.
Proof.
  assert (Hq : int64 10) by (unfold int64, int64_min, int64_max; lia).
  split; [right; reflexivity|]. split.
  - apply (proj1 (proj2 (encrypt_shape_errors 10 10 1 2 1 small_pk 1
                           counting_tape (or_intror eq_refl))));
      simpl; lia.
  - split; [exact Hq|].
    apply (proj2 (proj2 (proj2 (encrypt_shape_errors 10 10 4 2 1
                                  (mkMatrix 1 [[7]; [8]]) 1 counting_tape
                                  (or_intror eq_refl)))) Hq one_column_int64);
      try reflexivity; lia.
Defined.

Lemma ciphertext_tail_message_free_witness :
  int64 10 /\ Forall (Forall int64) (rows small_pk)
  /\ Z.of_nat (nrows small_pk) = 3 /\ Z.of_nat (ncols small_pk) = 1 + 1
  /\ exists c0 c1 g',
       encrypt (10, 10, 1, 3, 1) small_pk 0 counting_tape = (Ok c0, g')
       /\ encrypt (10, 10, 1, 3, 1) small_pk 1 counting_tape = (Ok c1, g')
       /\ tl c0 = tl c1.
Proof.
  assert (Hq : int64 10) by (unfold int64, int64_min, int64_max; lia).
  split; [exact Hq|]. split; [exact small_pk_int64|].
  split; [reflexivity|]. split; [reflexivity|].
  apply (ciphertext_tail_message_free 10 10 1 3 1 small_pk counting_tape
           Hq small_pk_int64); reflexivity.
Defined.

Lemma decrypt_even_modulus_witness :
  0 < 10 <= int64_max /\ (2 | 10)
  /\ Forall int64 [3; -5] /\ Forall int64 [-7; 2 ^ 62]
  /\ decrypt toy [3; -5] [-7; 2 ^ 62] counting_tape
     = (Ok (dotZ [-7; 2 ^ 62] [3; -5] mod 2), counting_tape).
Proof.
  assert (Hq : 0 < 10 <= int64_max) by (unfold int64_max; lia).
  assert (H2 : (2 | 10)) by (exists 5; reflexivity).
  split; [exact Hq|]. split; [exact H2|].
  split; [exact (proj1 wide_entries_int64)|].
  split; [exact (proj2 wide_entries_int64)|].
  apply (decrypt_even_modulus 10 10 10 70 1 [3; -5] [-7; 2 ^ 62]
           counting_tape Hq H2 (proj1 wide_entries_int64)
           (proj2 wide_entries_int64) eq_refl).
Defined.

Lemma odd_fits64 : fits64 101 2.
Proof. unfold fits64, int64_max; lia. Qed.

Lemma odd_secret_range : Forall (fun x => 0 <= x < 101) [40; 100].
Proof. repeat constructor; lia. Qed.

Lemma decrypt_encrypt_noise_witness :
  fits64 101 2 /\ Forall (fun x => 0 <= x < 101) [40; 100]
  /\ ((1 + 2 * dotZ (drawn_e 101 2 3 [5; 6; 7; 8; 9; 10; 50; 60; 70])
                    (drawn_r 3 [1; 0; 0])) mod 101) mod 2 = 0
  /\ exists pk c,
       fst (public_key_gen (101, 10, 2, 3, 1) [1; 40; 100]
              [5; 6; 7; 8; 9; 10; 50; 60; 70]) = Ok pk
       /\ fst (encrypt (101, 10, 2, 3, 1) pk 1 [1; 0; 0]) = Ok c
       /\ fst (decrypt (101, 10, 2, 3, 1) [1; 40; 100] c ([] : list Z))
          = Ok (((1 + 2 * dotZ (drawn_e 101 2 3
                                 [5; 6; 7; 8; 9; 10; 50; 60; 70])
                              (drawn_r 3 [1; 0; 0])) mod 101) mod 2).
Proof.
  split; [exact odd_fits64|]. split; [exact odd_secret_range|].
  split; [vm_compute; reflexivity|].
  apply (decrypt_encrypt_noise 101 10 2 3 1 1 [40; 100]
           [5; 6; 7; 8; 9; 10; 50; 60; 70] [1; 0; 0] []);
    try lia; try reflexivity.
  - exact odd_fits64.
  - unfold int64_max; lia.
  - exact odd_secret_range.
Defined.

Lemma round_trip_small_noise_witness :
  fits64 101 2 /\ Forall (fun x => 0 <= x < 101) [40; 100]
  /\ 1 + 2 * dotZ (drawn_e 101 2 3 [5; 6; 7; 8; 9; 10; 1; 0; 2])
                  (drawn_r 3 [1; 1; 0]) < 101
  /\ exists pk c,
       fst (public_key_gen (101, 10, 2, 3, 1) [1; 40; 100]
              [5; 6; 7; 8; 9; 10; 1; 0; 2]) = Ok pk
       /\ fst (encrypt (101, 10, 2, 3, 1) pk 1 [1; 1; 0]) = Ok c
       /\ fst (decrypt (101, 10, 2, 3, 1) [1; 40; 100] c ([] : list Z)) = Ok 1.
Proof.
  split; [exact odd_fits64|]. split; [exact odd_secret_range|].
  split; [vm_compute; reflexivity|].
  apply (round_trip_small_noise 101 10 2 3 1 1 [40; 100]
           [5; 6; 7; 8; 9; 10; 1; 0; 2] [1; 1; 0] []);
    try lia; try reflexivity.
  - exact odd_fits64.
  - unfold int64_max; lia.
  - exact odd_secret_range.
Defined.

Lemma round_trip_even_modulus_witness :
  (2 | 4) /\ fits64 4 1
  /\ exists sk pk c,
       fst (secret_key_gen (4, 10, 1, 2, 1) counting_tape) = Ok sk
       /\ fst (public_key_gen (4, 10, 1, 2, 1) sk counting_tape) = Ok pk
       /\ fst (encrypt (4, 10, 1, 2, 1) pk 1 counting_tape) = Ok c
       /\ fst (decrypt (4, 10, 1, 2, 1) sk c counting_tape) = Ok 1.
Proof.
  split; [exists 2; reflexivity|].
  split; [unfold fits64, int64_max; lia|].
  apply (round_trip_even_modulus 4 10 1 2 1 1 counting_tape counting_tape
           counting_tape counting_tape); try lia.
  - exists 2; reflexivity.
  - unfold fits64, int64_max; lia.
  - unfold int64_max; lia.
Defined.

Lemma setup_mod_size_witness :
  setup 1 (- 2 ^ 31 - 1) 1 counting_tape = (Err OverflowError, counting_tape)
  /\ setup 1 (-3) 1 counting_tape = (Err ValueError, counting_tape)
  /\ (fst (setup 1 0 1 counting_tape) = Ok (10, 10, 10, 70, 1) <-> 0 <= 0).
Proof.
  split; [|split].
  - apply (proj1 (setup_mod_size 1 (- 2 ^ 31 - 1) 1 counting_tape)); lia.
  - apply (proj1 (proj2 (setup_mod_size 1 (-3) 1 counting_tape))); lia.
  - apply (proj2 (proj2 (setup_mod_size 1 0 1 counting_tape))); lia.
Defined.
